(** * The percpu read-write semaphore (lib/percpu-rwsem.c)

    A shallow embedding of [percpu_init_rwsem], [update_fast_ctr],
    [percpu_down_read], [percpu_up_read], [clear_fast_ctr],
    [percpu_down_write] and [percpu_up_write].

    Data: the per-cpu [int] counters and the [atomic_t] slow counter are
    32-bit machine integers, kept as [Z] with the wrap-around written out.
    Control: every task runs one C statement at a time; a state of the whole
    system is the shared semaphore plus one program counter per task, and a
    schedule is a list of (task, action) pairs interleaved in any order.
    Memory is sequentially consistent: a statement sees the effect of every
    statement scheduled before it. The kernel primitives the file calls
    (mutex, rw-semaphore, wait queue, atomics, the per-cpu allocator and
    [synchronize_sched_expedited]) are modelled by their contracts. *)

From stdpp Require Import base numbers list.
From Stdlib Require Import ZArith Lia.

Local Open Scope Z_scope.

(** ** 32-bit integers *)

Module Int32.

Definition modulus : Z := 2 ^ 32.
Definition half_modulus : Z := 2 ^ 31.
Definition INT_MIN : Z := - half_modulus.
Definition INT_MAX : Z := half_modulus - 1.

(** Conversion to [unsigned int]. *)
Definition to_unsigned (z : Z) : Z := z mod modulus.

(** Conversion to [int] (two's complement). *)
Definition to_int (z : Z) : Z :=
  let u := z mod modulus in
  if u <? half_modulus then u else u - modulus.

Definition in_range (z : Z) : Prop := INT_MIN <= z <= INT_MAX.

End Int32.

(** ** Kernel primitives the semaphore is built from *)

(** Tasks are numbered. *)
Abbreviation tid := nat (only parsing).

(** Modelled from the spec: [struct mutex] (linux/mutex.h is not among the
    sources), "a mutual-exclusion lock, held by at most one writer at a
    time"; the state is the task that holds it, if any. *)
Definition mutex := option tid.

Definition mutex_init : mutex := None.

Definition mutex_is_locked (m : mutex) : bool :=
  match m with Some _ => true | None => false end.

(** [mutex_lock] succeeds when the mutex is free; [None] is "the caller
    blocks". *)
Definition mutex_lock (t : tid) (m : mutex) : option mutex :=
  if mutex_is_locked m then None else Some (Some t).

Definition mutex_unlock (m : mutex) : mutex := None.

(** Modelled from the spec: [struct rw_semaphore] (linux/rwsem.h is not among
    the sources), "a reader-writer lock": a count of shared holders and the
    exclusive holder, if any. *)
Record rw_semaphore := mk_rwsem {
  rw_readers : nat;
  rw_writer : option tid
}.

Definition init_rwsem : rw_semaphore := mk_rwsem 0 None.

Definition down_read (r : rw_semaphore) : option rw_semaphore :=
  match rw_writer r with
  | None => Some (mk_rwsem (S (rw_readers r)) None)
  | Some _ => None
  end.

Definition up_read (r : rw_semaphore) : rw_semaphore :=
  mk_rwsem (pred (rw_readers r)) (rw_writer r).

Definition down_write (t : tid) (r : rw_semaphore) : option rw_semaphore :=
  match rw_writer r, rw_readers r with
  | None, O => Some (mk_rwsem O (Some t))
  | _, _ => None
  end.

Definition up_write (r : rw_semaphore) : rw_semaphore :=
  mk_rwsem (rw_readers r) None.

(** Modelled from the spec: [atomic_t] and its operations (asm/atomic.h is
    not among the sources), "a single process-wide atomic integer": a 32-bit
    [int], each operation one indivisible step that wraps around. *)
Definition atomic_set (i : Z) : Z := i.
Definition atomic_read (v : Z) : Z := v.
Definition atomic_add (i v : Z) : Z := Int32.to_int (v + i).
Definition atomic_inc (v : Z) : Z := Int32.to_int (v + 1).
Definition atomic_dec_and_test (v : Z) : Z * bool :=
  let v' := Int32.to_int (v - 1) in (v', v' =? 0).

(** Modelled from the spec: [wait_queue_head_t] (linux/wait.h is not among
    the sources), "a blocking wait condition": the tasks asleep on it. *)
Definition wait_queue_head := list tid.

Definition init_waitqueue_head : wait_queue_head := [].
Definition wake_up_all (q : wait_queue_head) : wait_queue_head := [].

(** Modelled from the spec: [alloc_percpu(int)] (linux/percpu.h is not among
    the sources) "allocates the per-unit counter array (one slot per
    execution unit in the system), zero-initializes it", or fails and
    returns NULL. [avail] says whether storage can be obtained. *)
Definition alloc_percpu (avail : bool) (nr_cpus : nat) : option (list Z) :=
  if avail then Some (replicate nr_cpus 0) else None.

(** Modelled from the spec: the code of the "AllocationError"; [ENOMEM] is
    12 in asm-generic/errno-base.h, which is not among the sources. *)
Definition ENOMEM : Z := 12.

(** ** struct percpu_rw_semaphore *)

Record percpu_rw_semaphore := mk_brw {
  fast_read_ctr : option (list Z);   (* NULL, or one [int] per possible cpu *)
  writer_mutex : mutex;
  rw_sem : rw_semaphore;
  slow_read_ctr : Z;
  write_waitq : wait_queue_head
}.

Definition set_fast_read_ctr (c : option (list Z)) (b : percpu_rw_semaphore) :=
  mk_brw c (writer_mutex b) (rw_sem b) (slow_read_ctr b) (write_waitq b).
Definition set_writer_mutex (m : mutex) (b : percpu_rw_semaphore) :=
  mk_brw (fast_read_ctr b) m (rw_sem b) (slow_read_ctr b) (write_waitq b).
Definition set_rw_sem (r : rw_semaphore) (b : percpu_rw_semaphore) :=
  mk_brw (fast_read_ctr b) (writer_mutex b) r (slow_read_ctr b) (write_waitq b).
Definition set_slow_read_ctr (v : Z) (b : percpu_rw_semaphore) :=
  mk_brw (fast_read_ctr b) (writer_mutex b) (rw_sem b) v (write_waitq b).
Definition set_write_waitq (q : wait_queue_head) (b : percpu_rw_semaphore) :=
  mk_brw (fast_read_ctr b) (writer_mutex b) (rw_sem b) (slow_read_ctr b) q.

(** [percpu_init_rwsem(brw)]: [alloc] is what [alloc_percpu(int)] returned,
    [brw] the caller's structure as it was before the call. The result is
    the return code and the structure after the call. *)
Definition percpu_init_rwsem (alloc : option (list Z)) (brw : percpu_rw_semaphore)
  : Z * percpu_rw_semaphore :=
  let brw := set_fast_read_ctr alloc brw in
  match fast_read_ctr brw with
  | None => (- ENOMEM, brw)
  | Some _ =>
      let brw := set_writer_mutex mutex_init brw in
      let brw := set_rw_sem init_rwsem brw in
      let brw := set_slow_read_ctr (atomic_set 0) brw in
      let brw := set_write_waitq init_waitqueue_head brw in
      (0, brw)
  end.

(** [percpu_free_rwsem(brw)]. *)
Definition percpu_free_rwsem (brw : percpu_rw_semaphore) : percpu_rw_semaphore :=
  set_fast_read_ctr None brw.

(** ** The counters *)

Definition Zsum (l : list Z) : Z := foldr Z.add 0 l.

(** The two values [update_fast_ctr] is called with: [+1] from
    [percpu_down_read], [-1] from [percpu_up_read], both converted to the
    parameter's type [unsigned int]. *)
Inductive rw_op := Down | Up.

Definition fast_ctr_val (o : rw_op) : Z :=
  match o with
  | Down => Int32.to_unsigned 1
  | Up => Int32.to_unsigned (-1)
  end.

(** [__this_cpu_add] of [val] to [brw->fast_read_ctr] on cpu [cpu]: the [int] slot
    of the running cpu plus the [unsigned int] value, stored back as [int].
    [None] for a cpu that has no slot. *)
Definition this_cpu_add (ctrs : list Z) (cpu : nat) (val : Z) : option (list Z) :=
  x ← ctrs !! cpu;
  Some (<[cpu := Int32.to_int (Int32.to_unsigned x + val)]> ctrs).

(** One iteration of the loop of [clear_fast_ctr]:
    [sum += per_cpu(ctr, cpu); per_cpu(ctr, cpu) = 0;] with [sum] an
    [unsigned int]. *)
Definition clear_fast_ctr_body (cpu : nat) (acc : Z * list Z) : Z * list Z :=
  match acc.2 !! cpu with
  | Some x => (Int32.to_unsigned (acc.1 + Int32.to_unsigned x), <[cpu := 0]> acc.2)
  | None => acc
  end.

(** [clear_fast_ctr(brw)] run to its end: the loop over every possible cpu,
    then [return sum] converted to the return type [int]. The result is the
    returned value and the counters as the loop leaves them. *)
Definition clear_fast_ctr (ctrs : list Z) : Z * list Z :=
  let r := foldl (λ acc cpu, clear_fast_ctr_body cpu acc) (0, ctrs)
                 (seq 0 (length ctrs)) in
  (Int32.to_int r.1, r.2).

(** The drain of [percpu_down_write]:
    [atomic_add(clear_fast_ctr(brw), &brw->slow_read_ctr)]. *)
Definition drain (brw : percpu_rw_semaphore) : option percpu_rw_semaphore :=
  ctrs ← fast_read_ctr brw;
  let r := clear_fast_ctr ctrs in
  Some (set_slow_read_ctr (atomic_add r.1 (slow_read_ctr brw))
          (set_fast_read_ctr (Some r.2) brw)).

(** ** Tasks

    Where a task stands in the code. [Idle] is outside the semaphore,
    [Reading] between the return of [percpu_down_read] and the call of
    [percpu_up_read], [Writing] between the return of [percpu_down_write]
    and the call of [percpu_up_write]; every other constructor is "about to
    run this statement". *)

(** The two callers of [synchronize_sched_expedited]. *)
Inductive wr_op := Acq | Rel.

Inductive pc :=
  | Idle
  | Reading
  | Writing
  (* update_fast_ctr(brw, val) *)
  | UFC_preempt_disable (o : rw_op)
  | UFC_test (o : rw_op) (cpu : nat)            (* if (!mutex_is_locked(..)) *)
  | UFC_add (o : rw_op) (cpu : nat)             (* __this_cpu_add(..., val) *)
  | UFC_preempt_enable (o : rw_op) (success : bool)
  (* percpu_down_read, after update_fast_ctr returned false *)
  | DR_down_read
  | DR_atomic_inc
  | DR_up_read
  (* percpu_up_read, after update_fast_ctr returned false *)
  | UR_dec_and_test
  | UR_wake_up_all
  (* percpu_down_write *)
  | DW_mutex_lock
  | Sync_begin (o : wr_op)                      (* synchronize_sched_expedited() *)
  | Sync_wait (o : wr_op)
  | DW_clear (cpu : nat) (sum : Z)              (* the loop of clear_fast_ctr *)
  | DW_atomic_add (sum : Z)
  | DW_down_write
  | DW_wait_event
  | DW_sleep
  (* percpu_up_write *)
  | UW_up_write
  | UW_mutex_unlock.

(** What the environment does to a task: call one of the four entry points,
    or let it run its next statement; [Tick cpu] names the cpu the scheduler
    has the task on, which matters only when preemption is off. *)
Inductive entry :=
  | E_percpu_down_read
  | E_percpu_up_read
  | E_percpu_down_write
  | E_percpu_up_write.

Inductive action :=
  | Call (f : entry)
  | Tick (cpu : nat).

(** The whole system: the semaphore, the tasks, and the grace periods in
    progress: a pair [(w, t)] says that the [synchronize_sched_expedited] of
    task [w] still waits for task [t] to leave the preemption-off region it
    was in when the call began. *)
Record state := mk_state {
  brw : percpu_rw_semaphore;
  pcs : list pc;
  sync_pending : list (tid * tid)
}.

Definition goto (t : tid) (p : pc) (b : percpu_rw_semaphore) (s : state) : state :=
  mk_state b (<[t := p]> (pcs s)) (sync_pending s).

(** A task is inside a preemption-off region from [preempt_disable] to
    [preempt_enable]. *)
Definition in_region (p : pc) : bool :=
  match p with
  | UFC_test _ _ | UFC_add _ _ | UFC_preempt_enable _ _ => true
  | _ => false
  end.

Fixpoint tids_in_region (i : tid) (l : list pc) : list tid :=
  match l with
  | [] => []
  | p :: l' => (if in_region p then [i] else []) ++ tids_in_region (S i) l'
  end.

(** Modelled from the spec: [synchronize_sched_expedited] (kernel/rcutree.c
    is not among the sources), "a system-wide quiescence/barrier operation
    guaranteeing all execution units have passed through a synchronization
    point since the call was issued": the call notes the tasks that are
    inside a preemption-off region, and returns once each of them has run
    [preempt_enable]. *)
Definition synchronize_begin (w : tid) (s : state) : list (tid * tid) :=
  (pair w <$> tids_in_region 0%nat (pcs s)) ++ sync_pending s.

Definition synchronize_done (w : tid) (s : state) : bool :=
  forallb (λ wt, negb (wt.1 =? w)%nat) (sync_pending s).

(** [preempt_enable()] by task [t] ends its region: no grace period waits
    for [t] any longer. *)
Definition preempt_enable (t : tid) (pend : list (tid * tid)) : list (tid * tid) :=
  List.filter (λ wt, negb (wt.2 =? t)%nat) pend.

(** Where [update_fast_ctr] returns to. *)
Definition update_fast_ctr_return (o : rw_op) (success : bool) : pc :=
  match o, success with
  | Down, true => Reading
  | Down, false => DR_down_read
  | Up, true => Idle
  | Up, false => UR_dec_and_test
  end.

(** [update_fast_ctr(brw, val)], statement by statement. [cpu_now], the cpu
    the task is on when it turns preemption off, is one of the possible
    cpus, those that have a counter. *)
Definition update_fast_ctr (s : state) (t : tid) (p : pc) (cpu_now : nat)
  : option state :=
  let b := brw s in
  match p with
  | UFC_preempt_disable o =>
      ctrs ← fast_read_ctr b;
      if (cpu_now <? length ctrs)%nat
      then Some (goto t (UFC_test o cpu_now) b s) else None
  | UFC_test o cpu =>
      if negb (mutex_is_locked (writer_mutex b))
      then Some (goto t (UFC_add o cpu) b s)
      else Some (goto t (UFC_preempt_enable o false) b s)
  | UFC_add o cpu =>
      ctrs ← fast_read_ctr b;
      ctrs' ← this_cpu_add ctrs cpu (fast_ctr_val o);
      Some (goto t (UFC_preempt_enable o true) (set_fast_read_ctr (Some ctrs') b) s)
  | UFC_preempt_enable o success =>
      Some (mk_state b (<[t := update_fast_ctr_return o success]> (pcs s))
                     (preempt_enable t (sync_pending s)))
  | _ => None
  end.

(** [percpu_down_read(brw)] past the fast path. *)
Definition percpu_down_read (s : state) (t : tid) (p : pc) : option state :=
  let b := brw s in
  match p with
  | DR_down_read =>
      r ← down_read (rw_sem b);
      Some (goto t DR_atomic_inc (set_rw_sem r b) s)
  | DR_atomic_inc =>
      Some (goto t DR_up_read (set_slow_read_ctr (atomic_inc (slow_read_ctr b)) b) s)
  | DR_up_read =>
      Some (goto t Reading (set_rw_sem (up_read (rw_sem b)) b) s)
  | _ => None
  end.

(** [percpu_up_read(brw)] past the fast path. *)
Definition percpu_up_read (s : state) (t : tid) (p : pc) : option state :=
  let b := brw s in
  match p with
  | UR_dec_and_test =>
      let r := atomic_dec_and_test (slow_read_ctr b) in
      Some (goto t (if r.2 then UR_wake_up_all else Idle) (set_slow_read_ctr r.1 b) s)
  | UR_wake_up_all =>
      Some (goto t Idle (set_write_waitq (wake_up_all (write_waitq b)) b) s)
  | _ => None
  end.

(** [synchronize_sched_expedited()], called from [percpu_down_write] ([Acq])
    and from [percpu_up_write] ([Rel]). *)
Definition synchronize_sched_expedited (s : state) (t : tid) (p : pc) : option state :=
  match p with
  | Sync_begin o =>
      Some (mk_state (brw s) (<[t := Sync_wait o]> (pcs s)) (synchronize_begin t s))
  | Sync_wait o =>
      if synchronize_done t s
      then Some (goto t (match o with Acq => DW_clear 0%nat 0 | Rel => UW_mutex_unlock end)
                      (brw s) s)
      else None
  | _ => None
  end.

(** [percpu_down_write(brw)], with [clear_fast_ctr] in line. [wait_event]
    tests the condition and, when it is false, puts the task on the queue
    and to sleep until [wake_up_all] takes it off; then it tests again. *)
Definition percpu_down_write (s : state) (t : tid) (p : pc) : option state :=
  let b := brw s in
  match p with
  | DW_mutex_lock =>
      m ← mutex_lock t (writer_mutex b);
      Some (goto t (Sync_begin Acq) (set_writer_mutex m b) s)
  | DW_clear cpu sum =>
      ctrs ← fast_read_ctr b;
      if (cpu <? length ctrs)%nat
      then let r := clear_fast_ctr_body cpu (sum, ctrs) in
           Some (goto t (DW_clear (S cpu) r.1) (set_fast_read_ctr (Some r.2) b) s)
      else Some (goto t (DW_atomic_add (Int32.to_int sum)) b s)
  | DW_atomic_add sum =>
      Some (goto t DW_down_write
              (set_slow_read_ctr (atomic_add sum (slow_read_ctr b)) b) s)
  | DW_down_write =>
      r ← down_write t (rw_sem b);
      Some (goto t DW_wait_event (set_rw_sem r b) s)
  | DW_wait_event =>
      if negb (atomic_read (slow_read_ctr b) =? 0)
      then Some (goto t DW_sleep (set_write_waitq (t :: write_waitq b) b) s)
      else Some (goto t Writing b s)
  | DW_sleep =>
      if existsb (Nat.eqb t) (write_waitq b) then None
      else Some (goto t DW_wait_event b s)
  | _ => None
  end.

(** [percpu_up_write(brw)]. *)
Definition percpu_up_write (s : state) (t : tid) (p : pc) : option state :=
  let b := brw s in
  match p with
  | UW_up_write =>
      Some (goto t (Sync_begin Rel) (set_rw_sem (up_write (rw_sem b)) b) s)
  | UW_mutex_unlock =>
      Some (goto t Idle (set_writer_mutex (mutex_unlock (writer_mutex b)) b) s)
  | _ => None
  end.

(** A call enters the function at its first statement. Calls pair up: one
    releases what one holds, and a task that holds the semaphore does not
    acquire it again. *)
Definition call (f : entry) (p : pc) : option pc :=
  match f, p with
  | E_percpu_down_read, Idle => Some (UFC_preempt_disable Down)
  | E_percpu_up_read, Reading => Some (UFC_preempt_disable Up)
  | E_percpu_down_write, Idle => Some DW_mutex_lock
  | E_percpu_up_write, Writing => Some UW_up_write
  | _, _ => None
  end.

(** One step of task [t]; [None] when [t] cannot move (it is blocked, or
    the action does not apply where it stands). *)
Definition step (s : state) (t : tid) (a : action) : option state :=
  p ← pcs s !! t;
  match a with
  | Call f => p' ← call f p; Some (goto t p' (brw s) s)
  | Tick cpu =>
      match p with
      | UFC_preempt_disable _ | UFC_test _ _ | UFC_add _ _
      | UFC_preempt_enable _ _ => update_fast_ctr s t p cpu
      | DR_down_read | DR_atomic_inc | DR_up_read => percpu_down_read s t p
      | UR_dec_and_test | UR_wake_up_all => percpu_up_read s t p
      | Sync_begin _ | Sync_wait _ => synchronize_sched_expedited s t p
      | DW_mutex_lock | DW_clear _ _ | DW_atomic_add _ | DW_down_write
      | DW_wait_event | DW_sleep => percpu_down_write s t p
      | UW_up_write | UW_mutex_unlock => percpu_up_write s t p
      | Idle | Reading | Writing => None
      end
  end.

Definition schedule := list (tid * action).

Fixpoint run (s : state) (tr : schedule) : option state :=
  match tr with
  | [] => Some s
  | (t, a) :: tr' => s' ← step s t a; run s' tr'
  end.

(** The statements task [t] runs along [tr], oldest first. *)
Fixpoint stmts (t : tid) (s : state) (tr : schedule) : list pc :=
  match tr with
  | [] => []
  | (t', a) :: tr' =>
      match step s t' a with
      | None => []
      | Some s' =>
          match a, pcs s !! t' with
          | Tick _, Some p => if (t' =? t)%nat then p :: stmts t s' tr'
                              else stmts t s' tr'
          | _, _ => stmts t s' tr'
          end
      end
  end.

(** A freshly initialised semaphore and [nr_tasks] tasks outside it. *)
Definition init_brw (nr_cpus : nat) : percpu_rw_semaphore :=
  mk_brw (Some (replicate nr_cpus 0)) mutex_init init_rwsem 0 init_waitqueue_head.

Definition init_state (nr_cpus nr_tasks : nat) : state :=
  mk_state (init_brw nr_cpus) (replicate nr_tasks Idle) [].

Definition reachable (nr_cpus nr_tasks : nat) (s : state) : Prop :=
  ∃ tr, run (init_state nr_cpus nr_tasks) tr = Some s.

(** ** Histories of fast-path updates

    Which cpu ran the [__this_cpu_add] of [update_fast_ctr], and for which
    caller, oldest first. *)
Definition history := list (nat * rw_op).

Fixpoint apply_history (ctrs : list Z) (h : history) : option (list Z) :=
  match h with
  | [] => Some ctrs
  | (cpu, o) :: h' =>
      ctrs' ← this_cpu_add ctrs cpu (fast_ctr_val o);
      apply_history ctrs' h'
  end.

(** The same updates on unbounded integers. *)
Definition exact_val (o : rw_op) : Z :=
  match o with Down => 1 | Up => -1 end.

Definition exact_total (h : history) : Z := Zsum ((λ e, exact_val e.2) <$> h).

(** Equality of 32-bit patterns. *)
Definition eqm32 (x y : Z) : Prop := x mod Int32.modulus = y mod Int32.modulus.

(** ** What a task holds, by where it stands *)

(** The task holds [writer_mutex]: from the return of [mutex_lock] to
    [mutex_unlock]. *)
Definition holds_mutex (p : pc) : bool :=
  match p with
  | Sync_begin _ | Sync_wait _ | DW_clear _ _ | DW_atomic_add _ | DW_down_write
  | DW_wait_event | DW_sleep | Writing | UW_up_write | UW_mutex_unlock => true
  | _ => false
  end.

(** The task holds [rw_sem] for writing: from [down_write] to [up_write]. *)
Definition holds_rwsem_write (p : pc) : bool :=
  match p with
  | DW_wait_event | DW_sleep | Writing | UW_up_write => true
  | _ => false
  end.

(** The task holds [rw_sem] for reading: from [down_read] to [up_read]. *)
Definition holds_rwsem_read (p : pc) : Z :=
  match p with
  | DR_atomic_inc | DR_up_read => 1
  | _ => 0
  end.

(** The task is a reader that has added its [+1] to a counter and not yet
    its [-1]. *)
Definition counted (p : pc) : Z :=
  match p with
  | UFC_preempt_enable Down true | DR_up_read | Reading
  | UFC_preempt_disable Up | UFC_test Up _ | UFC_add Up _
  | UFC_preempt_enable Up false | UR_dec_and_test => 1
  | _ => 0
  end.

(** The local [sum] of a writer inside [clear_fast_ctr], until it has been
    added to [slow_read_ctr]. *)
Definition local_sum (p : pc) : Z :=
  match p with
  | DW_clear _ sum | DW_atomic_add sum => sum
  | _ => 0
  end.

(** The writer has left the loop of [clear_fast_ctr] and still holds
    [writer_mutex]. *)
Definition drained (p : pc) : bool :=
  match p with
  | DW_atomic_add _ | DW_down_write | DW_wait_event | DW_sleep | Writing
  | UW_up_write | Sync_begin Rel | Sync_wait Rel | UW_mutex_unlock => true
  | _ => false
  end.

Definition ctrs_of (s : state) : list Z := default [] (fast_read_ctr (brw s)).

(** The invariant of the protocol. *)
Record inv (s : state) : Prop := mk_inv {
  inv_alloc : is_Some (fast_read_ctr (brw s));
  inv_tasks : Z.of_nat (length (pcs s)) < Int32.modulus;
  inv_mutex : ∀ t p, pcs s !! t = Some p →
    (holds_mutex p = true ↔ writer_mutex (brw s) = Some t);
  inv_rwsem_w : ∀ t p, pcs s !! t = Some p →
    (holds_rwsem_write p = true ↔ rw_writer (rw_sem (brw s)) = Some t);
  inv_rwsem_r :
    Z.of_nat (rw_readers (rw_sem (brw s))) = Zsum (holds_rwsem_read <$> pcs s);
  inv_rwsem_excl :
    is_Some (rw_writer (rw_sem (brw s))) → rw_readers (rw_sem (brw s)) = O;
  inv_inflight : ∀ t o c w, pcs s !! t = Some (UFC_add o c) →
    writer_mutex (brw s) = Some w →
    pcs s !! w = Some (Sync_begin Acq) ∨
    (pcs s !! w = Some (Sync_wait Acq) ∧ (w, t) ∈ sync_pending s);
  inv_count :
    eqm32 (Zsum (ctrs_of s) + slow_read_ctr (brw s) + Zsum (local_sum <$> pcs s))
        (Zsum (counted <$> pcs s));
  inv_clear : ∀ w i sum, pcs s !! w = Some (DW_clear i sum) →
    Forall (λ x, x = 0) (take i (ctrs_of s));
  inv_drained : ∀ w p, pcs s !! w = Some p → drained p = true →
    Forall (λ x, x = 0) (ctrs_of s);
  inv_writing : ∀ w, pcs s !! w = Some Writing →
    Zsum (counted <$> pcs s) = 0 ∧ slow_read_ctr (brw s) = 0
}.

(** Side conditions on a state with [n] possible cpus: the counters are
    allocated, one per cpu; a task with preemption off runs on one of them;
    the slow counter is an [int]. *)
Definition cpu_of (p : pc) : option nat :=
  match p with
  | UFC_test _ cpu | UFC_add _ cpu => Some cpu
  | _ => None
  end.

Record wf (n : nat) (s : state) : Prop := mk_wf {
  wf_ctrs : ∃ ctrs, fast_read_ctr (brw s) = Some ctrs ∧ length ctrs = n;
  wf_cpu : ∀ t p c, pcs s !! t = Some p → cpu_of p = Some c → (c < n)%nat;
  wf_slow : Int32.in_range (slow_read_ctr (brw s));
  wf_owner : ∀ w, writer_mutex (brw s) = Some w → is_Some (pcs s !! w)
}.

(** ** Runs of one task

    [tick_succ p p']: some task standing at [p] can run its statement and
    stand at [p'] afterwards. [path_to q p l]: the statements [l] lead, in
    this order, from [p] to [q]. *)
Definition tick_succ (p p' : pc) : Prop :=
  ∃ s t cpu s', pcs s !! t = Some p ∧ step s t (Tick cpu) = Some s' ∧
                pcs s' !! t = Some p'.

Inductive path_to (q : pc) : pc → list pc → Prop :=
  | path_done : path_to q q []
  | path_step p p' l : tick_succ p p' → path_to q p' l → path_to q p (p :: l).

Definition is_tick (a : action) : bool :=
  match a with Tick _ => true | Call _ => false end.

(** Task [t] is not called into another function along [tr]: the schedule
    stays inside one invocation. *)
Definition ticks_only (t : tid) (tr : schedule) : bool :=
  forallb (λ x, negb (x.1 =? t)%nat || is_tick x.2) tr.

(** No task calls [percpu_down_write] along [tr]. *)
Definition no_writer (tr : schedule) : bool :=
  forallb (λ x, match x.2 with Call E_percpu_down_write => false | _ => true end) tr.






(** The control flow of one task: the statements that can follow [p]. *)
Definition successor (p p' : pc) : Prop :=
  match p with
  | UFC_preempt_disable o => ∃ cpu, p' = UFC_test o cpu
  | UFC_test o cpu => p' = UFC_add o cpu ∨ p' = UFC_preempt_enable o false
  | UFC_add o cpu => p' = UFC_preempt_enable o true
  | UFC_preempt_enable o success => p' = update_fast_ctr_return o success
  | DR_down_read => p' = DR_atomic_inc
  | DR_atomic_inc => p' = DR_up_read
  | DR_up_read => p' = Reading
  | UR_dec_and_test => p' = UR_wake_up_all ∨ p' = Idle
  | UR_wake_up_all => p' = Idle
  | DW_mutex_lock => p' = Sync_begin Acq
  | Sync_begin o => p' = Sync_wait o
  | Sync_wait Acq => p' = DW_clear 0 0
  | Sync_wait Rel => p' = UW_mutex_unlock
  | DW_clear cpu sum =>
      (∃ sum', p' = DW_clear (S cpu) sum') ∨ p' = DW_atomic_add (Int32.to_int sum)
  | DW_atomic_add _ => p' = DW_down_write
  | DW_down_write => p' = DW_wait_event
  | DW_wait_event => p' = DW_sleep ∨ p' = Writing
  | DW_sleep => p' = DW_wait_event
  | UW_up_write => p' = Sync_begin Rel
  | UW_mutex_unlock => p' = Idle
  | Idle | Reading | Writing => False
  end.

(** The read side is open in [s]: some reader has added its [+1] and not
    yet its [-1]; this spans the critical section between the return of
    [percpu_down_read] and the call of [percpu_up_read]. *)
Definition read_side_open (s : state) : Prop :=
  ∃ r p, pcs s !! r = Some p ∧ counted p = 1.

(** Some reader is inside its critical section. *)
Definition reader_in_section (s : state) : Prop :=
  ∃ r, pcs s !! r = Some Reading.

(** A reader is past a successful fast-path test of [percpu_down_read]. *)
Definition fast_acquire_succeeding (p : pc) : bool :=
  match p with
  | UFC_add Down _ | UFC_preempt_enable Down true => true
  | _ => false
  end.

(** The state after [tr], from a fresh semaphore; the fresh state itself
    when [tr] cannot run. *)
Definition after (nr_cpus nr_tasks : nat) (tr : schedule) : state :=
  default (init_state nr_cpus nr_tasks) (run (init_state nr_cpus nr_tasks) tr).

(** ** Schedules used as examples *)

(** Task 1 takes the semaphore for writing with nobody else around
    (2 cpus): the call, then its nine statements. *)
Definition writer_alone : schedule :=
  (1%nat, Call E_percpu_down_write) :: replicate 9 (1%nat, Tick 0).

(** Task 0 takes the semaphore for reading on cpu 0 and stays in its
    section; then task 1 calls [percpu_down_write] and runs up to the loop
    of [clear_fast_ctr] (2 cpus). *)
Definition reader_then_writer_at_drain : schedule :=
  (0%nat, Call E_percpu_down_read) :: replicate 4 (0%nat, Tick 0)
  ++ (1%nat, Call E_percpu_down_write) :: replicate 3 (1%nat, Tick 0).


(** The reader of [reader_then_writer_at_drain] stays in its section while
    the writer drains, takes [rw_sem] and goes to sleep in [wait_event]. *)
Definition writer_sleeps : schedule :=
  reader_then_writer_at_drain ++ replicate 6 (1%nat, Tick 0).

(** Then the reader releases (on cpu 1) and the writer wakes up and returns. *)
Definition reader_wakes_writer : schedule :=
  writer_sleeps
  ++ (0%nat, Call E_percpu_up_read) :: replicate 5 (0%nat, Tick 1)
  ++ replicate 2 (1%nat, Tick 0).

(** Task 0 calls [percpu_down_read] while task 1 is writing, and runs up to
    [down_read]. *)
Definition reader_behind_writer : schedule :=
  writer_alone ++ (0%nat, Call E_percpu_down_read) :: replicate 3 (0%nat, Tick 0).

(** [read_side_open] and [along], decided. *)
Definition read_side_openb (s : state) : bool :=
  existsb (λ p, counted p =? 1) (pcs s).


(** The task is outside the semaphore, in a read section, or on the fast
    path of [update_fast_ctr]. *)
Definition fast_path_pc (p : pc) : bool :=
  match p with
  | Idle | Reading | UFC_preempt_disable _ | UFC_test _ _ | UFC_add _ _
  | UFC_preempt_enable _ true => true
  | _ => false
  end.

(** Task 0 takes the semaphore for reading on cpu 0, migrates, and starts
    to release it on cpu 1, up to the [__this_cpu_add]; there is no writer. *)
Definition migrating_reader : schedule :=
  (0%nat, Call E_percpu_down_read) :: replicate 4 (0%nat, Tick 0)
  ++ (0%nat, Call E_percpu_up_read) :: replicate 3 (0%nat, Tick 1).

(** Task 0 takes the semaphore for reading while no writer is around; task 1
    calls [percpu_down_write] and takes [writer_mutex]; task 0 releases. *)
Definition fast_acquire_slow_release : schedule :=
  (0%nat, Call E_percpu_down_read) :: replicate 4 (0%nat, Tick 0)
  ++ [(1%nat, Call E_percpu_down_write); (1%nat, Tick 0)]
  ++ (0%nat, Call E_percpu_up_read) :: replicate 4 (0%nat, Tick 0).

(** "No per-cpu counter ever goes negative while there is no writer." *)
Definition counters_never_negative (nr_cpus nr_tasks : nat) : Prop :=
  ∀ tr s, no_writer tr = true → run (init_state nr_cpus nr_tasks) tr = Some s →
          Forall (λ x, 0 <= x) (ctrs_of s).

(** "A reader whose release takes the slow branch acquired on the slow
    path", for a schedule on which task [t] has one read section. *)
Definition release_matches_acquire (s : state) (tr : schedule) (t : tid) : Prop :=
  is_Some (run s tr) →
  UR_dec_and_test ∈ stmts t s tr → DR_atomic_inc ∈ stmts t s tr.

(** The invariant of a system in which no writer has ever called in. *)
Record readers_only (s : state) : Prop := mk_readers_only {
  ro_mutex : writer_mutex (brw s) = None;
  ro_slow : slow_read_ctr (brw s) = 0;
  ro_fast : ∀ t p, pcs s !! t = Some p → fast_path_pc p = true
}.

(** ** Progress

    What the wait queue, the grace periods and the owner of [rw_sem] look
    like in every reachable state, and that every per-cpu counter is an
    [int]. *)
Record live_inv (s : state) : Prop := mk_live_inv {
  li_pending : ∀ w t, (w, t) ∈ sync_pending s →
    ∃ p, pcs s !! t = Some p ∧ in_region p = true;
  li_waitq : ∀ t, t ∈ write_waitq (brw s) →
    pcs s !! t = Some DW_sleep ∧
    (slow_read_ctr (brw s) ≠ 0 ∨ ∃ r, pcs s !! r = Some UR_wake_up_all);
  li_rw_owner : ∀ w, rw_writer (rw_sem (brw s)) = Some w → is_Some (pcs s !! w);
  li_range : Forall Int32.in_range (ctrs_of s)
}.

(** The task is inside one of the four functions. *)
Definition in_call (p : pc) : bool :=
  match p with
  | Idle | Reading | Writing => false
  | _ => true
  end.

(** No task can run a statement, on any cpu. *)
Definition stuck (s : state) : Prop := ∀ t cpu, step s t (Tick cpu) = None.

(** The writer has released [rw_sem] and not yet [writer_mutex]. *)
Definition releasing (p : pc) : bool :=
  match p with
  | Sync_begin Rel | Sync_wait Rel | UW_mutex_unlock => true
  | _ => false
  end.

(** The writer is past its first grace period and still holds
    [writer_mutex]. *)
Definition past_barrier (p : pc) : bool :=
  match p with
  | DW_clear _ _ | DW_atomic_add _ | DW_down_write | DW_wait_event | DW_sleep
  | Writing | UW_up_write | Sync_begin Rel | Sync_wait Rel | UW_mutex_unlock => true
  | _ => false
  end.

(** One whole [percpu_down_read] of task [t] on cpu [cpu], fast path; one
    whole [percpu_up_read], fast path. *)
Definition acquire_read (t : tid) (cpu : nat) : schedule :=
  (t, Call E_percpu_down_read) :: replicate 4 (t, Tick cpu).

Definition release_read (t : tid) (cpu : nat) : schedule :=
  (t, Call E_percpu_up_read) :: replicate 4 (t, Tick cpu).

(** Tasks [0 .. n-1] acquire one after the other. *)
Fixpoint all_acquire (n : nat) (cpu : nat) : schedule :=
  match n with
  | O => []
  | S k => all_acquire k cpu ++ acquire_read k cpu
  end.

(** The statements at which a task can be held up: the blocking calls
    [down_read], [mutex_lock], the grace period, [down_write], the sleep of
    [wait_event]; and the three places where the next move is the user's. *)
Definition may_block (p : pc) : bool :=
  match p with
  | Idle | Reading | Writing | DR_down_read | DW_mutex_lock | Sync_wait _
  | DW_down_write | DW_sleep => true
  | _ => false
  end.

(** Task 1 has taken the semaphore for writing, calls [percpu_up_write] and
    releases [rw_sem]. *)
Definition writer_releasing : schedule :=
  writer_alone ++ [(1%nat, Call E_percpu_up_write); (1%nat, Tick 0)].

(** The reader of [reader_wakes_writer] is gone; the writer releases. *)
Definition write_cycle_done : schedule :=
  reader_wakes_writer
  ++ (1%nat, Call E_percpu_up_write) :: replicate 4 (1%nat, Tick 0).

(** ** Readers while no writer is present *)

(** The task is inside [percpu_down_write] or [percpu_up_write], or holds
    the semaphore for writing. *)
Definition writer_pc (p : pc) : bool :=
  match p with
  | DW_mutex_lock | Sync_begin _ | Sync_wait _ | DW_clear _ _ | DW_atomic_add _
  | DW_down_write | DW_wait_event | DW_sleep | Writing | UW_up_write
  | UW_mutex_unlock => true
  | _ => false
  end.

(** No writer is present: no task is a writer. Earlier writers may have
    come and gone. *)
Definition no_writer_present (s : state) : bool :=
  forallb (λ p, negb (writer_pc p)) (pcs s).

(** Every task is outside the semaphore, in a read section, or on the fast
    path. *)
Definition all_fast_path (s : state) : bool := forallb fast_path_pc (pcs s).

(** Task 1 takes the semaphore for writing and starts to release it; task 0
    acquires for reading after the writer's [up_write], on the slow path;
    the writer finishes. No writer is left, task 0 is in its read section,
    the per-cpu counters are zero and [slow_read_ctr] is 1. *)
Definition reader_outlives_writer : schedule :=
  writer_releasing
  ++ (0%nat, Call E_percpu_down_read) :: replicate 6 (0%nat, Tick 0)
  ++ replicate 3 (1%nat, Tick 0).

(** ** linux/page-flags-layout.h

    The header is preprocessor arithmetic over what the configuration and
    the headers it includes define. A macro becomes a function of that
    configuration; [inl] is a [#error]. The preprocessor evaluates [#if] in
    [intmax_t], 64 bits wide: the configuration's numbers are [intmax_t]
    values, and every [+] and [-] of a condition wraps around. *)

Module PageFlagsLayout.

Record config := mk_config {
  MAX_NR_ZONES : Z;                  (* generated/bounds.h *)
  CONFIG_SPARSEMEM : bool;
  CONFIG_SPARSEMEM_VMEMMAP : bool;
  MAX_PHYSMEM_BITS : Z;              (* asm/sparsemem.h *)
  SECTION_SIZE_BITS : Z;
  NODES_SHIFT : Z;                   (* linux/numa.h *)
  BITS_PER_LONG : Z;
  NR_PAGEFLAGS : Z;                  (* generated/bounds.h *)
  CONFIG_NUMA_BALANCING : bool;
  NR_CPUS_BITS : Z
}.

Inductive error :=
  | too_many_zones                   (* "ZONES_SHIFT -- too many zones configured" *)
  | vmemmap_no_space_for_nodes.      (* "Vmemmap: No space for nodes field" *)

Definition ZONES_SHIFT (c : config) : error + Z :=
  if MAX_NR_ZONES c <? 2 then inr 0
  else if MAX_NR_ZONES c <=? 2 then inr 1
  else if MAX_NR_ZONES c <=? 4 then inr 2
  else inl too_many_zones.

(** Conversion to [intmax_t] (two's complement, 64 bits), and the [+] and
    [-] of an [#if]. *)
Definition to_intmax (z : Z) : Z :=
  let u := z mod 2 ^ 64 in
  if u <? 2 ^ 63 then u else u - 2 ^ 64.

Definition INTMAX_MAX : Z := 2 ^ 63 - 1.

Definition in_intmax (z : Z) : bool := (- 2 ^ 63 <=? z) && (z <=? INTMAX_MAX).

Definition cpp_add (a b : Z) : Z := to_intmax (a + b).
Definition cpp_sub (a b : Z) : Z := to_intmax (a - b).

(** Every number of the configuration is an [intmax_t]. (A constant that is
    not, or one with a [u] suffix, would make the preprocessor compute in
    [uintmax_t].) *)
Definition intmax_config (c : config) : bool :=
  forallb in_intmax
    [MAX_NR_ZONES c; MAX_PHYSMEM_BITS c; SECTION_SIZE_BITS c; NODES_SHIFT c;
     BITS_PER_LONG c; NR_PAGEFLAGS c; NR_CPUS_BITS c].

Definition SECTIONS_SHIFT (c : config) : Z :=
  cpp_sub (MAX_PHYSMEM_BITS c) (SECTION_SIZE_BITS c).

Definition SECTIONS_WIDTH (c : config) : Z :=
  if CONFIG_SPARSEMEM c && negb (CONFIG_SPARSEMEM_VMEMMAP c)
  then SECTIONS_SHIFT c else 0.

Definition ZONES_WIDTH (c : config) : error + Z := ZONES_SHIFT c.

(** The space left of the flags: [BITS_PER_LONG - NR_PAGEFLAGS]. *)
Definition room (c : config) : Z := cpp_sub (BITS_PER_LONG c) (NR_PAGEFLAGS c).

Definition NODES_WIDTH (c : config) : error + Z :=
  match ZONES_WIDTH c with
  | inl e => inl e
  | inr z =>
      if cpp_add (cpp_add (SECTIONS_WIDTH c) z) (NODES_SHIFT c) <=? room c
      then inr (NODES_SHIFT c)
      else if CONFIG_SPARSEMEM_VMEMMAP c then inl vmemmap_no_space_for_nodes
      else inr 0
  end.

Definition LAST_CPU_SHIFT (c : config) : Z :=
  if CONFIG_NUMA_BALANCING c then NR_CPUS_BITS c else 0.

Definition LAST_CPU_WIDTH (c : config) : error + Z :=
  match NODES_WIDTH c, ZONES_WIDTH c with
  | inr _, inr z =>
      if cpp_add (cpp_add (cpp_add (SECTIONS_WIDTH c) z) (NODES_SHIFT c))
                 (LAST_CPU_SHIFT c) <=? room c
      then inr (LAST_CPU_SHIFT c) else inr 0
  | inl e, _ | _, inl e => inl e
  end.

Definition NODE_NOT_IN_PAGE_FLAGS (c : config) : error + bool :=
  match NODES_WIDTH c with
  | inl e => inl e
  | inr n => inr (negb ((0 <? n) || (NODES_SHIFT c =? 0)))
  end.

Definition LAST_CPU_NOT_IN_PAGE_FLAGS (c : config) : error + bool :=
  match LAST_CPU_WIDTH c with
  | inl e => inl e
  | inr l => inr (CONFIG_NUMA_BALANCING c && (l =? 0))
  end.

(** A 32-bit flat-memory configuration with three zones, and a 64-bit
    sparse-vmemmap NUMA configuration. *)
Definition flat32 : config :=
  mk_config 3 false false 0 0 0 32 22 false 0.

Definition numa64 : config :=
  mk_config 4 true true 46 27 6 64 25 true 8.


(** A configuration whose [NODES_SHIFT] makes the sum of the [#if] that
    defines [NODES_WIDTH] wrap around. *)
Definition huge_nodes : config :=
  mk_config 3 false false 0 0 (2 ^ 63 - 1) 64 25 false 0.

End PageFlagsLayout.

(* ================================================================== *)
(** * Properties *)

(** ** 32-bit arithmetic *)

#[export] Instance eqm32_equivalence : Equivalence eqm32.
Proof.
  unfold eqm32. split.
  - intros x. reflexivity.
  - intros x y H. symmetry. exact H.
  - intros x y z H1 H2. congruence.
Qed.

#[export] Instance eqm32_add : Proper (eqm32 ==> eqm32 ==> eqm32) Z.add.
Proof.
  unfold eqm32. intros x x' Hx y y' Hy.
  rewrite (Z.add_mod x), (Z.add_mod x') by (unfold Int32.modulus; lia).
  rewrite Hx, Hy. reflexivity.
Qed.

#[export] Instance eqm32_sub : Proper (eqm32 ==> eqm32 ==> eqm32) Z.sub.
Proof.
  unfold eqm32. intros x x' Hx y y' Hy.
  rewrite (Zminus_mod x), (Zminus_mod x'). rewrite Hx, Hy. reflexivity.
Qed.

Lemma eqm32_to_unsigned z : eqm32 (Int32.to_unsigned z) z.
Proof. unfold eqm32, Int32.to_unsigned. apply Z.mod_mod. unfold Int32.modulus. lia. Qed.

Lemma eqm32_to_int z : eqm32 (Int32.to_int z) z.
Proof.
  unfold eqm32, Int32.to_int. cbv zeta.
  destruct (z mod Int32.modulus <? Int32.half_modulus).
  - apply Z.mod_mod. unfold Int32.modulus. lia.
  - rewrite Zminus_mod_idemp_l.
    rewrite <- (Z.sub_0_r z) at 2.
    apply eqm32_sub; [reflexivity|]. reflexivity.
Qed.

Lemma to_int_eqm x y : eqm32 x y → Int32.to_int x = Int32.to_int y.
Proof. unfold eqm32, Int32.to_int. intros ->. reflexivity. Qed.

Lemma to_unsigned_eqm x y : eqm32 x y → Int32.to_unsigned x = Int32.to_unsigned y.
Proof. unfold eqm32, Int32.to_unsigned. intros ->. reflexivity. Qed.

Lemma to_int_in_range z : Int32.in_range z → Int32.to_int z = z.
Proof.
  unfold Int32.in_range, Int32.INT_MIN, Int32.INT_MAX, Int32.to_int,
    Int32.half_modulus, Int32.modulus. intros H. cbv zeta.
  destruct (Z.ltb_spec (z mod 2 ^ 32) (2 ^ 31)) as [Hlt|Hge].
  - destruct (Z.le_gt_cases 0 z) as [Hz|Hz].
    + apply Z.mod_small. lia.
    + rewrite <- (Z.mod_add z 1) in Hlt by lia.
      rewrite Z.mod_small in Hlt by lia. lia.
  - destruct (Z.le_gt_cases 0 z) as [Hz|Hz].
    + rewrite Z.mod_small in Hge by lia. lia.
    + rewrite <- (Z.mod_add z 1) by lia.
      rewrite Z.mod_small by lia. lia.
Qed.

Lemma to_int_range z : Int32.in_range (Int32.to_int z).
Proof.
  unfold Int32.in_range, Int32.INT_MIN, Int32.INT_MAX, Int32.to_int,
    Int32.half_modulus, Int32.modulus. cbv zeta.
  pose proof (Z.mod_pos_bound z (2 ^ 32)) as Hb.
  destruct (Z.ltb_spec (z mod 2 ^ 32) (2 ^ 31)); lia.
Qed.

Lemma eqm32_small x y :
  0 <= x < Int32.modulus → 0 <= y < Int32.modulus → eqm32 x y → x = y.
Proof. unfold eqm32. intros Hx Hy. rewrite !Z.mod_small by assumption. auto. Qed.

Lemma fast_ctr_val_eqm o : eqm32 (fast_ctr_val o) (exact_val o).
Proof. destruct o; apply eqm32_to_unsigned. Qed.

(** ** Sums over the counters *)

Lemma Zsum_app l1 l2 : Zsum (l1 ++ l2) = Zsum l1 + Zsum l2.
Proof. induction l1 as [|x l1 IH]; simpl; [reflexivity | rewrite IH; lia]. Qed.

Lemma Zsum_insert (l : list Z) i x y :
  l !! i = Some x → Zsum (<[i := y]> l) = Zsum l - x + y.
Proof.
  revert i. induction l as [|a l IH]; intros [|i] H; simpl in *; try discriminate.
  - injection H as ->. lia.
  - rewrite (IH _ H). lia.
Qed.

Lemma Zsum_replicate_0 n : Zsum (replicate n 0) = 0.
Proof. induction n as [|n IH]; simpl; [reflexivity | rewrite IH; reflexivity]. Qed.

Lemma Zsum_zero (l : list Z) : Forall (λ x, x = 0) l → Zsum l = 0.
Proof. induction 1 as [|x l -> _ IH]; simpl; [reflexivity | exact IH]. Qed.

Lemma Zsum_fmap_insert {A} (f : A → Z) (l : list A) i x y :
  l !! i = Some x → Zsum (f <$> <[i := y]> l) = Zsum (f <$> l) - f x + f y.
Proof.
  intros H. rewrite list_fmap_insert.
  apply Zsum_insert. rewrite list_lookup_fmap, H. reflexivity.
Qed.

Lemma Zsum_fmap_zero {A} (f : A → Z) (l : list A) :
  (∀ i x, l !! i = Some x → f x = 0) → Zsum (f <$> l) = 0.
Proof.
  intros H. apply Zsum_zero. apply Forall_forall. intros y Hy.
  apply list_elem_of_fmap in Hy as (x & -> & Hx).
  apply list_elem_of_lookup in Hx as [i Hi]. eauto.
Qed.

Lemma Zsum_fmap_cons {A} (f : A → Z) (a : A) (l : list A) :
  Zsum (f <$> a :: l) = f a + Zsum (f <$> l).
Proof. reflexivity. Qed.

Lemma Zsum_fmap_bounds {A} (f : A → Z) (l : list A) :
  (∀ x, 0 <= f x <= 1) → 0 <= Zsum (f <$> l) <= Z.of_nat (length l).
Proof.
  intros H. induction l as [|a l IH]; [simpl; lia|].
  rewrite Zsum_fmap_cons, length_cons, Nat2Z.inj_succ. pose proof (H a). lia.
Qed.

Lemma Zsum_fmap_nonneg {A} (f : A → Z) (l : list A) :
  (∀ x, 0 <= f x) → 0 <= Zsum (f <$> l).
Proof.
  intros H. induction l as [|a l IH]; [simpl; lia|].
  rewrite Zsum_fmap_cons. pose proof (H a). lia.
Qed.

Lemma Zsum_fmap_zero_inv {A} (f : A → Z) (l : list A) i x :
  (∀ x, 0 <= f x) → Zsum (f <$> l) = 0 → l !! i = Some x → f x = 0.
Proof.
  intros Hf. revert i. induction l as [|a l IH]; intros i Hs Hl.
  - destruct i; discriminate.
  - rewrite Zsum_fmap_cons in Hs.
    pose proof (Zsum_fmap_nonneg f l Hf). pose proof (Hf a).
    destruct i as [|i]; simpl in Hl.
    + injection Hl as <-. lia.
    + apply (IH i); [lia | assumption].
Qed.

(** ** [this_cpu_add] and [clear_fast_ctr] *)

Lemma this_cpu_add_Some ctrs cpu val ctrs' :
  this_cpu_add ctrs cpu val = Some ctrs' →
  ∃ x, ctrs !! cpu = Some x ∧
       ctrs' = <[cpu := Int32.to_int (Int32.to_unsigned x + val)]> ctrs.
Proof.
  unfold this_cpu_add. destruct (ctrs !! cpu) as [x|]; simpl; [|discriminate].
  intros [= <-]. eauto.
Qed.

Lemma this_cpu_add_sum ctrs cpu val ctrs' :
  this_cpu_add ctrs cpu val = Some ctrs' → eqm32 (Zsum ctrs') (Zsum ctrs + val).
Proof.
  intros (x & Hx & ->)%this_cpu_add_Some.
  rewrite (Zsum_insert _ _ _ _ Hx).
  rewrite eqm32_to_int, eqm32_to_unsigned.
  replace (Zsum ctrs - x + (x + val)) with (Zsum ctrs + val) by lia. reflexivity.
Qed.

Lemma this_cpu_add_length ctrs cpu val ctrs' :
  this_cpu_add ctrs cpu val = Some ctrs' → length ctrs' = length ctrs.
Proof. intros (x & Hx & ->)%this_cpu_add_Some. apply length_insert. Qed.

Lemma clear_fast_ctr_loop (ctrs : list Z) (i : nat) :
  (i ≤ length ctrs)%nat →
  foldl (λ acc cpu, clear_fast_ctr_body cpu acc) (0, ctrs) (seq 0 i)
  = (Int32.to_unsigned (Zsum (take i ctrs)), replicate i 0 ++ drop i ctrs).
Proof.
  induction i as [|i IH]; intros Hi.
  - simpl. rewrite drop_0. reflexivity.
  - rewrite seq_S, foldl_app, IH by lia. simpl.
    destruct (lookup_lt_is_Some_2 ctrs i) as [x Hx]; [lia|].
    unfold clear_fast_ctr_body. simpl.
    assert (Hl : (replicate i 0 ++ drop i ctrs) !! i = Some x).
    { rewrite lookup_app_r by (rewrite length_replicate; lia).
      rewrite length_replicate, Nat.sub_diag, lookup_drop, Nat.add_0_r. exact Hx. }
    rewrite Hl. f_equal.
    + apply to_unsigned_eqm. rewrite !eqm32_to_unsigned.
      rewrite (take_S_r _ _ _ Hx), Zsum_app. simpl.
      replace (x + 0) with x by lia. reflexivity.
    + rewrite insert_app_r_alt by (rewrite length_replicate; lia).
      rewrite length_replicate, Nat.sub_diag.
      rewrite (drop_S _ _ _ Hx). simpl.
      rewrite cons_middle, app_assoc, <- replicate_S_end. reflexivity.
Qed.

Lemma clear_fast_ctr_spec (ctrs : list Z) :
  clear_fast_ctr ctrs = (Int32.to_int (Zsum ctrs), replicate (length ctrs) 0).
Proof.
  unfold clear_fast_ctr. rewrite clear_fast_ctr_loop by lia.
  rewrite take_ge, drop_ge, app_nil_r by lia. simpl.
  f_equal. apply to_int_eqm. apply eqm32_to_unsigned.
Qed.

Lemma drain_spec (b : percpu_rw_semaphore) (ctrs : list Z) :
  fast_read_ctr b = Some ctrs →
  drain b = Some (set_slow_read_ctr
                    (atomic_add (Int32.to_int (Zsum ctrs)) (slow_read_ctr b))
                    (set_fast_read_ctr (Some (replicate (length ctrs) 0)) b)).
Proof.
  intros H. unfold drain. rewrite H. cbn [mbind option_bind].
  rewrite clear_fast_ctr_spec. reflexivity.
Qed.

Lemma apply_history_sum h : ∀ ctrs ctrs',
  apply_history ctrs h = Some ctrs' →
  eqm32 (Zsum ctrs') (Zsum ctrs + exact_total h) ∧ length ctrs' = length ctrs.
Proof.
  induction h as [|[cpu o] h IH]; intros ctrs ctrs' H; simpl in H.
  - injection H as <-. unfold exact_total. simpl. rewrite Z.add_0_r. split; reflexivity.
  - destruct (this_cpu_add ctrs cpu (fast_ctr_val o)) as [c1|] eqn:E; simpl in H;
      [|discriminate].
    destruct (IH _ _ H) as [Hs Hl]. split.
    + rewrite Hs, (this_cpu_add_sum _ _ _ _ E), fast_ctr_val_eqm.
      unfold exact_total. simpl.
      replace (Zsum ctrs + exact_val o + Zsum ((λ e, exact_val e.2) <$> h))
        with (Zsum ctrs + (exact_val o + Zsum ((λ e, exact_val e.2) <$> h))) by lia.
      reflexivity.
    + rewrite Hl. eapply this_cpu_add_length, E.
Qed.

(** ** The invariant holds in every reachable state *)

Lemma inv_init nr_cpus nr_tasks :
  Z.of_nat nr_tasks < Int32.modulus → inv (init_state nr_cpus nr_tasks).
Proof.
  intros Hn. split; simpl.
  - eauto.
  - rewrite length_replicate. exact Hn.
  - intros t p [-> _]%lookup_replicate. simpl. split; discriminate.
  - intros t p [-> _]%lookup_replicate. simpl. split; discriminate.
  - symmetry. apply Zsum_fmap_zero. intros i x [-> _]%lookup_replicate. reflexivity.
  - reflexivity.
  - intros t o c w [? _]%lookup_replicate. discriminate.
  - unfold ctrs_of. simpl. rewrite Zsum_replicate_0.
    rewrite !Zsum_fmap_zero; [reflexivity | |];
      intros i x [-> _]%lookup_replicate; reflexivity.
  - intros w i sum [? _]%lookup_replicate. discriminate.
  - intros w p [-> _]%lookup_replicate. discriminate.
  - intros w [? _]%lookup_replicate. discriminate.
Qed.

Ltac step_inv H :=
  unfold step in H;
  match type of H with
  | context [pcs ?s !! ?t] =>
      let p := fresh "p" in let Hp := fresh "Hp" in
      destruct (pcs s !! t) as [p|] eqn:Hp; [|discriminate];
      simpl in H;
      try match type of H with
      | context [match ?a with Call _ => _ | Tick _ => _ end] =>
          destruct a as [[]|?]
      end;
      destruct p; simpl in H; try discriminate
  end.


Ltac step_cases H :=
  step_inv H;
  unfold update_fast_ctr, percpu_down_read, percpu_up_read,
    synchronize_sched_expedited, percpu_down_write, percpu_up_write,
    mutex_lock, down_read, down_write in H;
  simpl in H;
  repeat (simplify_option_eq; try case_match; try discriminate).


Ltac split_lookup Hq :=
  apply list_lookup_insert_Some in Hq as [(-> & <- & _)|[? Hq]].

Lemma pres_mutex s t a s' : inv s → step s t a = Some s' →
  ∀ t' q, pcs s' !! t' = Some q →
    (holds_mutex q = true ↔ writer_mutex (brw s') = Some t').
Proof.
  intros I H t' q Hq. pose proof (inv_mutex _ I) as M.
  step_cases H; simpl in *; split_lookup Hq;
    pose proof (M _ _ Hp) as Mt; try (pose proof (M _ _ Hq) as Mq); simpl in *;
    try (destruct o); try (destruct success); simpl in *;
    unfold mutex_is_locked, mutex_unlock in *; try (intuition congruence).
  all: try (destruct (writer_mutex (brw s)); intuition congruence).
Qed.

Lemma pres_rwsem_w s t a s' : inv s → step s t a = Some s' →
  ∀ t' q, pcs s' !! t' = Some q →
    (holds_rwsem_write q = true ↔ rw_writer (rw_sem (brw s')) = Some t').
Proof.
  intros I H t' q Hq. pose proof (inv_rwsem_w _ I) as M.
  step_cases H; simpl in *; split_lookup Hq;
    pose proof (M _ _ Hp) as Mt; try (pose proof (M _ _ Hq) as Mq); simpl in *;
    try (destruct o); try (destruct success); simpl in *;
    unfold mutex_is_locked, mutex_unlock in *; try (intuition congruence).
Qed.

Lemma Zsum_fmap_lookup_le {A} (f : A → Z) (l : list A) i x :
  (∀ x, 0 <= f x) → l !! i = Some x → f x <= Zsum (f <$> l).
Proof.
  intros Hf. revert i. induction l as [|a l IH]; intros i Hl.
  - destruct i; discriminate.
  - rewrite Zsum_fmap_cons.
    pose proof (Zsum_fmap_nonneg f l Hf). pose proof (Hf a).
    destruct i as [|i]; simpl in Hl.
    + injection Hl as <-. lia.
    + specialize (IH i Hl). lia.
Qed.

Lemma holds_rwsem_read_nonneg p : 0 <= holds_rwsem_read p.
Proof. destruct p; simpl; lia. Qed.

Lemma pres_rwsem_r s t a s' : inv s → step s t a = Some s' →
  Z.of_nat (rw_readers (rw_sem (brw s'))) = Zsum (holds_rwsem_read <$> pcs s').
Proof.
  intros I H. pose proof (inv_rwsem_r _ I) as M.
  step_cases H; simpl in *; rewrite (Zsum_fmap_insert _ _ _ _ _ Hp); simpl;
    try (destruct o); try (destruct success); simpl; try lia.
  pose proof (Zsum_fmap_lookup_le _ _ _ _ holds_rwsem_read_nonneg Hp). simpl in *. lia.
Qed.

Lemma pres_rwsem_excl s t a s' : inv s → step s t a = Some s' →
  is_Some (rw_writer (rw_sem (brw s'))) → rw_readers (rw_sem (brw s')) = O.
Proof.
  intros I H. pose proof (inv_rwsem_excl _ I) as M.
  step_cases H; simpl in *; try assumption; try (intros [? [=]]; fail); try reflexivity.
  all: try (intros HS; rewrite (M HS); reflexivity).
Qed.

Lemma elem_tids_in_region (l : list pc) : ∀ i k p,
  l !! k = Some p → in_region p = true → (i + k)%nat ∈ tids_in_region i l.
Proof.
  induction l as [|a l IH]; intros i k p Hl Hr; [destruct k; discriminate|].
  simpl. apply elem_of_app. destruct k as [|k]; simpl in Hl.
  - injection Hl as ->. rewrite Hr. left. rewrite Nat.add_0_r. apply list_elem_of_here.
  - right. replace (i + S k)%nat with (S i + k)%nat by lia. eapply IH; eassumption.
Qed.

Lemma elem_synchronize_begin w s t p :
  pcs s !! t = Some p → in_region p = true → (w, t) ∈ synchronize_begin w s.
Proof.
  intros Hl Hr. unfold synchronize_begin. apply elem_of_app. left.
  apply list_elem_of_fmap_2. apply (elem_tids_in_region _ 0%nat t p Hl Hr).
Qed.

Lemma elem_synchronize_begin_old w s wt :
  wt ∈ sync_pending s → wt ∈ synchronize_begin w s.
Proof. intros H. unfold synchronize_begin. apply elem_of_app. right. exact H. Qed.

Lemma elem_preempt_enable t0 pend w t :
  (w, t) ∈ pend → t ≠ t0 → (w, t) ∈ preempt_enable t0 pend.
Proof.
  intros H Hne. unfold preempt_enable. apply list_elem_of_In, filter_In.
  split; [apply list_elem_of_In, H|]. simpl.
  destruct (Nat.eqb_spec t t0); [contradiction | reflexivity].
Qed.

Lemma synchronize_done_not_elem w s t :
  synchronize_done w s = true → (w, t) ∉ sync_pending s.
Proof.
  unfold synchronize_done. intros H Hin.
  rewrite forallb_forall in H. apply list_elem_of_In in Hin.
  specialize (H _ Hin). simpl in H. rewrite Nat.eqb_refl in H. discriminate.
Qed.


Ltac split_lookup' Hq :=
  apply list_lookup_insert_Some in Hq as [(? & ? & _)|[? Hq]]; simplify_eq.

Lemma pres_inflight s t a s' : inv s → step s t a = Some s' →
  ∀ t' o c w, pcs s' !! t' = Some (UFC_add o c) →
    writer_mutex (brw s') = Some w →
    pcs s' !! w = Some (Sync_begin Acq) ∨
    (pcs s' !! w = Some (Sync_wait Acq) ∧ (w, t') ∈ sync_pending s').
Proof.
  intros I H t' o' c' w Hq Hw. pose proof (inv_inflight _ I) as M.
  step_cases H; simpl in *; split_lookup' Hq;
    pose proof (inv_mutex _ I _ _ Hp) as Mt; simpl in Mt;
    unfold mutex_is_locked, mutex_unlock in *.
  all: try (destruct (writer_mutex (brw s)); simplify_eq; fail).
  all: try (specialize (M _ _ _ w Hq Hw));
    try (destruct (decide (w = t)) as [->|Hne];
      [ rewrite Hp in M; destruct M as [M|[M ?]]; simplify_eq
      | rewrite list_lookup_insert_ne by congruence; try exact M ]).
  - destruct o, success; discriminate.
  - destruct M as [M|[M Hin]]; [left; exact M|right].
    split; [exact M|]. apply elem_preempt_enable; [exact Hin | congruence].
  - left. apply list_lookup_insert_eq. eapply lookup_lt_Some, Hp.
  - right. split; [apply list_lookup_insert_eq; eapply lookup_lt_Some, Hp|].
    eapply elem_synchronize_begin; [exact Hq | reflexivity].
  - destruct M as [M|[M Hin]]; [left; exact M|right].
    split; [exact M|]. apply elem_synchronize_begin_old, Hin.
  - exfalso. eapply synchronize_done_not_elem; eassumption.
Qed.

Lemma eqm32_shift a b c d : eqm32 c d → a - b = c - d → eqm32 a b.
Proof.
  intros H E. replace a with (c + (a - c)) by lia.
  replace b with (d + (a - c)) by lia. rewrite H. reflexivity.
Qed.

Lemma clear_fast_ctr_body_Some cpu sum (ctrs : list Z) x :
  ctrs !! cpu = Some x →
  clear_fast_ctr_body cpu (sum, ctrs)
  = (Int32.to_unsigned (sum + Int32.to_unsigned x), <[cpu := 0]> ctrs).
Proof. intros H. unfold clear_fast_ctr_body. simpl. rewrite H. reflexivity. Qed.

Lemma pres_count s t a s' : inv s → step s t a = Some s' →
  eqm32 (Zsum (ctrs_of s') + slow_read_ctr (brw s') + Zsum (local_sum <$> pcs s'))
        (Zsum (counted <$> pcs s')).
Proof.
  intros I H. pose proof (inv_count _ I) as M. unfold ctrs_of in *.
  step_cases H; simpl in *; rewrite !(Zsum_fmap_insert _ _ _ _ _ Hp); simpl;
    try (destruct o); try (destruct success); simpl;
    try (eapply eqm32_shift; [exact M | lia]).
  - rewrite (this_cpu_add_sum _ _ _ _ Heqo1), (fast_ctr_val_eqm Down). simpl.
    eapply eqm32_shift; [exact M | lia].
  - rewrite (this_cpu_add_sum _ _ _ _ Heqo1), (fast_ctr_val_eqm Up). simpl.
    eapply eqm32_shift; [exact M | lia].
  - unfold atomic_inc. rewrite eqm32_to_int. eapply eqm32_shift; [exact M | lia].
  - rewrite eqm32_to_int. eapply eqm32_shift; [exact M | lia].
  - rewrite eqm32_to_int. eapply eqm32_shift; [exact M | lia].
  - destruct (lookup_lt_is_Some_2 H0 cpu0) as [x Hx].
    { apply Nat.ltb_lt. assumption. }
    rewrite (clear_fast_ctr_body_Some _ _ _ _ Hx). simpl.
    rewrite (Zsum_insert _ _ _ _ Hx), !eqm32_to_unsigned.
    eapply eqm32_shift; [exact M | lia].
  - rewrite eqm32_to_int. eapply eqm32_shift; [exact M | lia].
  - unfold atomic_add. rewrite eqm32_to_int. eapply eqm32_shift; [exact M | lia].
Qed.

Lemma drained_holds_mutex p : drained p = true → holds_mutex p = true.
Proof. destruct p as [| | | | | | | | | | | | |[]|[]| | | | | | |]; simpl; congruence. Qed.

Lemma holder_unique s t p w q :
  inv s → pcs s !! t = Some p → pcs s !! w = Some q →
  holds_mutex p = true → holds_mutex q = true → w = t.
Proof.
  intros I Hp Hq Hhp Hhq.
  apply (inv_mutex _ I _ _ Hp) in Hhp. apply (inv_mutex _ I _ _ Hq) in Hhq. congruence.
Qed.

Lemma no_inflight s t o c w q :
  inv s → pcs s !! t = Some (UFC_add o c) → pcs s !! w = Some q →
  holds_mutex q = true → q = Sync_begin Acq ∨ q = Sync_wait Acq.
Proof.
  intros I Ht Hw Hh. apply (inv_mutex _ I _ _ Hw) in Hh.
  destruct (inv_inflight _ I _ _ _ _ Ht Hh) as [E|[E _]]; rewrite Hw in E;
    injection E as ->; auto.
Qed.

Lemma pres_clear s t a s' : inv s → step s t a = Some s' →
  ∀ w i sum, pcs s' !! w = Some (DW_clear i sum) →
    Forall (λ x, x = 0) (take i (ctrs_of s')).
Proof.
  intros I H w i sum Hq. pose proof (inv_clear _ I) as M. unfold ctrs_of in *.
  step_cases H; simpl in *; split_lookup' Hq; try (eapply M; eassumption).
  all: try (destruct o; destruct success; discriminate).
  all: try (destruct (no_inflight _ _ _ _ _ _ I Hp Hq eq_refl); discriminate).
  all: try (pose proof (holder_unique _ _ _ _ _ I Hp Hq eq_refl eq_refl); congruence).
  - constructor.
  - destruct (lookup_lt_is_Some_2 H0 cpu0) as [x Hx].
    { apply Nat.ltb_lt. assumption. }
    rewrite (clear_fast_ctr_body_Some _ _ _ _ Hx). simpl.
    rewrite take_insert_lt by lia.
    rewrite (take_S_r _ _ _ Hx), insert_app_r_alt by (rewrite length_take; lia).
    apply Forall_app. split; [eapply M; eassumption|].
    rewrite length_take, Nat.min_l by (apply lookup_lt_Some in Hx; lia).
    rewrite Nat.sub_diag. simpl. repeat constructor.
Qed.

Lemma pres_drained s t a s' : inv s → step s t a = Some s' →
  ∀ w p, pcs s' !! w = Some p → drained p = true →
    Forall (λ x, x = 0) (ctrs_of s').
Proof.
  intros I H w q Hq Hd. pose proof (inv_drained _ I) as M.
  pose proof (inv_clear _ I) as C. unfold ctrs_of in *.
  step_cases H; simpl in *; split_lookup' Hq; try (eapply M; eassumption);
    try discriminate.
  all: try (eapply (M _ _ Hp); reflexivity).
  all: try (destruct o; destruct success; discriminate).
  all: try (destruct (no_inflight _ _ _ _ _ _ I Hp Hq (drained_holds_mutex _ Hd));
            subst q; discriminate).
  all: try (pose proof (holder_unique _ _ _ _ _ I Hp Hq eq_refl
                          (drained_holds_mutex _ Hd)); congruence).
  specialize (C _ _ _ Hp). rewrite take_ge in C; [exact C|].
  apply Nat.ltb_ge. assumption.
Qed.

Lemma counted_bounds p : 0 <= counted p <= 1.
Proof. destruct p as [| | |[]|[]|[]|[] []| | | | | | | | | | | | | | |]; simpl; lia. Qed.

Lemma counted_nonneg p : 0 <= counted p.
Proof. apply counted_bounds. Qed.

Lemma local_sum_holds_mutex p : local_sum p ≠ 0 → holds_mutex p = true.
Proof. destruct p; simpl; congruence. Qed.

(** With the writer past the loop and its sum added, the slow counter is
    the number of readers. *)
Lemma slow_is_count s w q :
  inv s → pcs s !! w = Some q → drained q = true → local_sum q = 0 →
  eqm32 (slow_read_ctr (brw s)) (Zsum (counted <$> pcs s)).
Proof.
  intros I Hw Hd Hl. pose proof (inv_count _ I) as M.
  assert (Hz : Zsum (local_sum <$> pcs s) = 0).
  { apply Zsum_fmap_zero. intros i x Hx.
    destruct (Z.eq_dec (local_sum x) 0) as [E|E]; [exact E|].
    apply local_sum_holds_mutex in E.
    pose proof (holder_unique _ _ _ _ _ I Hw Hx (drained_holds_mutex _ Hd) E).
    congruence. }
  rewrite (Zsum_zero _ (inv_drained _ I _ _ Hw Hd)), Hz in M.
  eapply eqm32_shift; [exact M | lia].
Qed.

Lemma no_rwsem_reader s w q t p :
  inv s → pcs s !! w = Some q → holds_rwsem_write q = true →
  pcs s !! t = Some p → holds_rwsem_read p = 1 → False.
Proof.
  intros I Hw Hq Ht Hp.
  apply (inv_rwsem_w _ I _ _ Hw) in Hq.
  pose proof (inv_rwsem_excl _ I) as E. rewrite Hq in E.
  specialize (E (ex_intro _ w eq_refl)).
  pose proof (inv_rwsem_r _ I) as R. rewrite E in R.
  pose proof (Zsum_fmap_lookup_le _ _ _ _ holds_rwsem_read_nonneg Ht). lia.
Qed.

Lemma no_reader_when_zero s w q :
  inv s → pcs s !! w = Some q → drained q = true → local_sum q = 0 →
  slow_read_ctr (brw s) = 0 → Zsum (counted <$> pcs s) = 0.
Proof.
  intros I Hw Hd Hl Hs. pose proof (slow_is_count _ _ _ I Hw Hd Hl) as E.
  rewrite Hs in E. symmetry. apply eqm32_small; [unfold Int32.modulus; lia | | exact E].
  pose proof (Zsum_fmap_bounds counted (pcs s) counted_bounds).
  pose proof (inv_tasks _ I). lia.
Qed.

Lemma pres_writing s t a s' : inv s → step s t a = Some s' →
  ∀ w, pcs s' !! w = Some Writing →
    Zsum (counted <$> pcs s') = 0 ∧ slow_read_ctr (brw s') = 0.
Proof.
  intros I H w Hq. pose proof (inv_writing _ I) as M.
  step_cases H; simpl in *; split_lookup' Hq;
    try (destruct o; destruct success; discriminate).
  all: try (destruct (M _ Hq) as [M1 M2];
    pose proof (Zsum_fmap_zero_inv _ _ _ _ counted_nonneg M1 Hp) as Hc;
    simpl in Hc; try discriminate;
    rewrite (Zsum_fmap_insert _ _ _ _ _ Hp); simpl; 
    try (destruct o); try (destruct success); simpl in *; try discriminate;
    try (split; [lia | assumption])).
  all: try (destruct (no_inflight _ _ _ _ _ _ I Hp Hq eq_refl); discriminate).
  all: try (pose proof (holder_unique _ _ _ _ _ I Hp Hq eq_refl eq_refl); congruence).
  - exfalso. eapply (no_rwsem_reader _ _ _ _ _ I Hq eq_refl Hp). reflexivity.
  - rewrite (Zsum_fmap_insert _ _ _ _ _ Hp). simpl.
    match goal with H : negb _ = false |- _ =>
      apply negb_false_iff, Z.eqb_eq in H; unfold atomic_read in H; rename H into Hs end.
    split; [|exact Hs].
    rewrite (no_reader_when_zero _ _ _ I Hp eq_refl eq_refl Hs). reflexivity.
Qed.

Lemma inv_step s t a s' : inv s → step s t a = Some s' → inv s'.
Proof.
  intros I H. split.
  - destruct (inv_alloc _ I) as [c Hc].
    step_cases H; simpl; eauto.
  - pose proof (inv_tasks _ I).
    step_cases H; simpl; rewrite length_insert; assumption.
  - eapply pres_mutex; eassumption.
  - eapply pres_rwsem_w; eassumption.
  - eapply pres_rwsem_r; eassumption.
  - eapply pres_rwsem_excl; eassumption.
  - eapply pres_inflight; eassumption.
  - eapply pres_count; eassumption.
  - eapply pres_clear; eassumption.
  - eapply pres_drained; eassumption.
  - eapply pres_writing; eassumption.
Qed.

Lemma inv_run tr : ∀ s s', inv s → run s tr = Some s' → inv s'.
Proof.
  induction tr as [|[t a] tr IH]; intros s s' I H; simpl in H.
  - injection H as <-. exact I.
  - destruct (step s t a) as [s1|] eqn:E; simpl in H; [|discriminate].
    eapply IH; [eapply inv_step; eassumption | exact H].
Qed.

Lemma inv_reachable nr_cpus nr_tasks s :
  Z.of_nat nr_tasks < Int32.modulus → reachable nr_cpus nr_tasks s → inv s.
Proof. intros Hn [tr H]. eapply inv_run; [apply inv_init, Hn | exact H]. Qed.

(** ** Well-formedness and reachability *)

Lemma step_other s t a s' t' : step s t a = Some s' → t' ≠ t → pcs s' !! t' = pcs s !! t'.
Proof.
  intros H Hne. step_cases H; simpl; apply list_lookup_insert_ne; congruence.
Qed.

Lemma step_length s t a s' : step s t a = Some s' → length (pcs s') = length (pcs s).
Proof. intros H. step_cases H; simpl; apply length_insert. Qed.

Lemma wf_init nr_cpus nr_tasks : wf nr_cpus (init_state nr_cpus nr_tasks).
Proof.
  split; simpl.
  - eexists. split; [reflexivity | apply length_replicate].
  - intros t p c [-> _]%lookup_replicate. discriminate.
  - unfold Int32.in_range, Int32.INT_MIN, Int32.INT_MAX, Int32.half_modulus. lia.
  - intros w [=].
Qed.

Lemma clear_fast_ctr_body_length cpu sum (ctrs : list Z) :
  length (clear_fast_ctr_body cpu (sum, ctrs)).2 = length ctrs.
Proof.
  unfold clear_fast_ctr_body. simpl. destruct (ctrs !! cpu); simpl;
    [apply length_insert | reflexivity].
Qed.

Lemma wf_step n s t a s' : wf n s → step s t a = Some s' → wf n s'.
Proof.
  intros [(ctrs & Hc & Hl) Hcpu Hslow Hown] H. split.
  - step_cases H; simpl; eauto.
    + eexists. split; [reflexivity|]. eapply this_cpu_add_length; eassumption.
    + eexists. split; [reflexivity|]. apply clear_fast_ctr_body_length.
  - intros t' q c Hq Hcq.
    step_cases H; simpl in *; split_lookup' Hq; try (eapply Hcpu; eassumption);
      simpl in *; try discriminate.
    all: try (destruct o, success; discriminate).
    all: try (injection Hcq as <-; apply Nat.ltb_lt; assumption).
    all: try (eapply (Hcpu _ _ _ Hp); simpl; congruence).
  - step_cases H; simpl; try assumption; apply to_int_range.
  - intros w Hw. apply lookup_lt_is_Some. rewrite (step_length _ _ _ _ H).
    step_cases H; simpl in *;
      try (apply lookup_lt_is_Some, Hown, Hw);
      try discriminate.
    eapply lookup_lt_Some, Hp.
Qed.

Lemma wf_run n tr : ∀ s s', wf n s → run s tr = Some s' → wf n s'.
Proof.
  induction tr as [|[t a] tr IH]; intros s s' I H; simpl in H.
  - injection H as <-. exact I.
  - destruct (step s t a) as [s1|] eqn:E; simpl in H; [|discriminate].
    eapply IH; [eapply wf_step; eassumption | exact H].
Qed.

Lemma wf_reachable nr_cpus nr_tasks s : reachable nr_cpus nr_tasks s → wf nr_cpus s.
Proof. intros [tr H]. eapply wf_run; [apply wf_init | exact H]. Qed.

Lemma reachable_step nr_cpus nr_tasks s t a s' :
  reachable nr_cpus nr_tasks s → step s t a = Some s' → reachable nr_cpus nr_tasks s'.
Proof.
  intros [tr H] Hs. exists (tr ++ [(t, a)]).
  revert H. generalize (init_state nr_cpus nr_tasks).
  induction tr as [|[t0 a0] tr IH]; intros s0 H; simpl in *.
  - injection H as ->. rewrite Hs. reflexivity.
  - destruct (step s0 t0 a0); simpl in *; [auto | discriminate].
Qed.

Lemma writing_excludes_readers s w :
  inv s → pcs s !! w = Some Writing → ¬ read_side_open s.
Proof.
  intros I Hw (r & p & Hr & Hc).
  destruct (inv_writing _ I _ Hw) as [Hz _].
  pose proof (Zsum_fmap_zero_inv _ _ _ _ counted_nonneg Hz Hr). lia.
Qed.

(** ** Sample runs *)

Example writer_sleeps_run :
  run (init_state 2 2) writer_sleeps
  = Some (mk_state (mk_brw (Some [0; 0]) (Some 1%nat) (mk_rwsem 0 (Some 1%nat)) 1
                           [1%nat])
                   [Reading; DW_sleep] []) ∧
  step (after 2 2 writer_sleeps) 1%nat (Tick 0) = None.
Proof. split; reflexivity. Qed.

Example reader_wakes_writer_run :
  run (init_state 2 2) reader_wakes_writer
  = Some (mk_state (mk_brw (Some [0; 0]) (Some 1%nat) (mk_rwsem 0 (Some 1%nat)) 0 [])
                   [Idle; Writing] []).
Proof. reflexivity. Qed.

Example reader_behind_writer_run :
  pcs (after 2 2 reader_behind_writer) = [DR_down_read; Writing] ∧
  step (after 2 2 reader_behind_writer) 0%nat (Tick 0) = None.
Proof. split; reflexivity. Qed.

(** ** Mutual exclusion *)

(** C1. Mutual exclusion, for every interleaving: in a state [s] reached by
    any schedule of calls to the four entry points, (1) a step that completes
    [percpu_down_write] (the task stands at [Writing] afterwards) is taken
    only when no reader's section is open, and (2) while a writer holds
    exclusivity no reader's section is open, no reader is past a successful
    fast-path test of [percpu_down_read], and a reader that runs the test
    fails it, leaving the counters as they are. *)
Theorem mutual_exclusion nr_cpus nr_tasks s :
  Z.of_nat nr_tasks < Int32.modulus →
  reachable nr_cpus nr_tasks s →
  (∀ w cpu s', step s w (Tick cpu) = Some s' → pcs s' !! w = Some Writing →
               ¬ read_side_open s ∧ ¬ reader_in_section s) ∧
  (∀ w, pcs s !! w = Some Writing →
        ¬ read_side_open s ∧ ¬ reader_in_section s ∧
        (∀ r p, pcs s !! r = Some p → fast_acquire_succeeding p = false) ∧
        (∀ r c cpu, pcs s !! r = Some (UFC_test Down c) →
           ∃ s', step s r (Tick cpu) = Some s' ∧
                 pcs s' !! r = Some (UFC_preempt_enable Down false) ∧
                 fast_read_ctr (brw s') = fast_read_ctr (brw s))).
Proof.
  intros Hn Hr. pose proof (inv_reachable _ _ _ Hn Hr) as I.
  assert (Hsec : ∀ s0, ¬ read_side_open s0 → ¬ reader_in_section s0).
  { intros s0 Ho [r Hrd]. apply Ho. exists r, Reading. split; [exact Hrd | reflexivity]. }
  split.
  - intros w cpu s' Hs Hw.
    assert (Ho : ¬ read_side_open s).
    { pose proof (inv_step _ _ _ _ I Hs) as I'.
      intros (r & p & Hp & Hc).
      apply (writing_excludes_readers _ _ I' Hw).
      destruct (decide (r = w)) as [->|Hne].
      - exfalso. step_cases Hs; simpl in *;
          rewrite list_lookup_insert_eq in Hw by (eapply lookup_lt_Some; eassumption);
          simplify_eq; try (destruct o, success; discriminate).
      - exists r, p. split; [|exact Hc].
        rewrite (step_other _ _ _ _ _ Hs Hne). exact Hp. }
    split; [exact Ho | apply Hsec, Ho].
  - intros w Hw. pose proof (writing_excludes_readers _ _ I Hw) as Ho.
    split; [exact Ho|]. split; [apply Hsec, Ho|]. split.
    + intros r p Hp. destruct p; try reflexivity; simpl.
      * destruct o; [|reflexivity].
        destruct (no_inflight _ _ _ _ _ _ I Hp Hw eq_refl); discriminate.
      * destruct o, success; try reflexivity.
        exfalso. apply Ho. exists r, (UFC_preempt_enable Down true). auto.
    + intros r c cpu Hp.
      assert (Hm : writer_mutex (brw s) = Some w).
      { apply (inv_mutex _ I _ _ Hw). reflexivity. }
      unfold step. rewrite Hp. simpl. rewrite Hm. simpl.
      eexists. split; [reflexivity|]. simpl. split; [|reflexivity].
      apply list_lookup_insert_eq. eapply lookup_lt_Some, Hp.
Qed.

Lemma mutual_exclusion_witness :
  Z.of_nat 2 < Int32.modulus ∧
  reachable 2 2 (after 2 2 writer_alone) ∧
  pcs (after 2 2 writer_alone) !! 1%nat = Some Writing ∧
  ¬ reader_in_section (after 2 2 writer_alone).
Proof.
  assert (Hn : Z.of_nat 2 < Int32.modulus) by reflexivity.
  assert (Hr : reachable 2 2 (after 2 2 writer_alone))
    by (exists writer_alone; reflexivity).
  split; [exact Hn|]. split; [exact Hr|]. split; [reflexivity|].
  destruct (mutual_exclusion 2 2 _ Hn Hr) as [_ H].
  apply (H 1%nat). reflexivity.
Defined.

(** ** Construction *)

(** C8. [percpu_init_rwsem] returns [-ENOMEM] exactly when the counter
    storage could not be allocated; then it has written nothing but the NULL
    counter pointer: the mutex, the rw-semaphore, the slow counter and the
    wait queue are as the caller had them, none initialised. Otherwise it
    returns 0 with the allocated counters in place (all zero, as
    [alloc_percpu] hands them out), the slow counter zero, and the mutex, the
    rw-semaphore and the wait queue in their initial states. *)
Theorem percpu_init_rwsem_spec (alloc : option (list Z)) (brw0 : percpu_rw_semaphore)
    (nr_cpus : nat) :
  ((percpu_init_rwsem alloc brw0).1 = - ENOMEM ↔ alloc = None) ∧
  match alloc with
  | None =>
      percpu_init_rwsem alloc brw0 = (- ENOMEM, set_fast_read_ctr None brw0)
  | Some ctrs =>
      percpu_init_rwsem alloc brw0
      = (0, mk_brw (Some ctrs) mutex_init init_rwsem 0 init_waitqueue_head)
  end ∧
  percpu_init_rwsem (alloc_percpu false nr_cpus) brw0
  = (- ENOMEM, mk_brw None (writer_mutex brw0) (rw_sem brw0) (slow_read_ctr brw0)
                      (write_waitq brw0)) ∧
  percpu_init_rwsem (alloc_percpu true nr_cpus) brw0 = (0, init_brw nr_cpus) ∧
  fast_read_ctr (init_brw nr_cpus) = Some (replicate nr_cpus 0) ∧
  slow_read_ctr (init_brw nr_cpus) = 0 ∧
  mutex_is_locked (writer_mutex (init_brw nr_cpus)) = false ∧
  rw_sem (init_brw nr_cpus) = mk_rwsem 0 None ∧
  write_waitq (init_brw nr_cpus) = [].
Proof.
  split.
  - destruct alloc; simpl; split; intros H; try discriminate; reflexivity.
  - split; [destruct alloc; reflexivity|]. repeat split.
Qed.

(** ** Counter arithmetic *)

(** C10. The decrement reaches [update_fast_ctr] as [2^32 - 1] and the
    increment as [1]; after any history of fast-path updates on counters that
    started at zero (whatever cpu each ran on, so single counters may be
    negative), [clear_fast_ctr] returns the exact total of the history as an
    [int], and adding it to the slow counter gives the exact signed result
    whenever that result is an [int]. *)
Theorem counter_arithmetic_exact (nr_cpus : nat) (h : history) (ctrs : list Z) (slow : Z) :
  apply_history (replicate nr_cpus 0) h = Some ctrs →
  Int32.in_range (slow + exact_total h) →
  fast_ctr_val Up = 2 ^ 32 - 1 ∧
  fast_ctr_val Down = 1 ∧
  (clear_fast_ctr ctrs).1 = Int32.to_int (exact_total h) ∧
  atomic_add (clear_fast_ctr ctrs).1 slow = slow + exact_total h.
Proof.
  intros Hh Hr. destruct (apply_history_sum _ _ _ Hh) as [Hs _].
  rewrite Zsum_replicate_0, Z.add_0_l in Hs.
  split; [reflexivity|]. split; [reflexivity|].
  rewrite clear_fast_ctr_spec. simpl. split.
  - apply to_int_eqm, Hs.
  - unfold atomic_add. rewrite <- (to_int_in_range _ Hr).
    apply to_int_eqm. rewrite eqm32_to_int, Hs. reflexivity.
Qed.

Lemma counter_arithmetic_exact_witness :
  apply_history (replicate 2 0) [(0, Down); (1, Up); (1, Down); (0, Up)]%nat
    = Some [0; 0] ∧
  apply_history (replicate 2 0) [(0, Down); (1, Up)]%nat = Some [1; -1] ∧
  atomic_add (clear_fast_ctr [1; -1]).1 5 = 5 + 0.
Proof.
  split; [reflexivity|]. split; [reflexivity|].
  apply (counter_arithmetic_exact 2 [(0, Down); (1, Up)]%nat [1; -1] 5).
  - reflexivity.
  - split; apply Z.leb_le; reflexivity.
Defined.

(** ** Runs of one task *)

Lemma tick_succ_successor p p' : tick_succ p p' → successor p p'.
Proof.
  intros (s & t & cpu & s' & Hp0 & H & Hp').
  assert (Hlt : (t < length (pcs s))%nat) by (eapply lookup_lt_Some, Hp0).
  step_cases H; simpl in *; rewrite list_lookup_insert_eq in Hp' by exact Hlt;
    simplify_eq; simpl; eauto.
Qed.

Lemma ticks_only_cons t x tr :
  ticks_only t (x :: tr) = true →
  (x.1 = t → ∃ cpu, x.2 = Tick cpu) ∧ ticks_only t tr = true.
Proof.
  unfold ticks_only. simpl. intros [H1 H2]%andb_true_iff. split; [|exact H2].
  intros E. destruct x as [t0 [f|cpu]]; simpl in *; [|eauto].
  subst t0. rewrite Nat.eqb_refl in H1. discriminate.
Qed.

Lemma run_path w tr : ∀ s s' p p',
  run s tr = Some s' → ticks_only w tr = true →
  pcs s !! w = Some p → pcs s' !! w = Some p' →
  path_to p' p (stmts w s tr).
Proof.
  induction tr as [|[t a] tr IH]; intros s s' p p' H Ht Hp Hp'; simpl in H; simpl.
  - injection H as <-. rewrite Hp in Hp'. injection Hp' as <-. constructor.
  - destruct (step s t a) as [s1|] eqn:E; simpl in H; [|discriminate].
    apply ticks_only_cons in Ht as [Ha Ht]. simpl in Ha.
    destruct (Nat.eqb_spec t w) as [->|Hne].
    + destruct (Ha eq_refl) as [cpu ->]. rewrite Hp.
      destruct (pcs s1 !! w) as [p1|] eqn:Hp1.
      * apply path_step with (p' := p1);
          [exists s, w, cpu, s1; repeat split; assumption | eapply IH; eassumption].
      * exfalso. apply lookup_ge_None in Hp1. apply lookup_lt_Some in Hp.
        rewrite (step_length _ _ _ _ E) in Hp1. lia.
    + assert (Hp1 : pcs s1 !! w = Some p).
      { rewrite (step_other _ _ _ _ _ E); [exact Hp | congruence]. }
      destruct a; [|destruct (pcs s !! t)]; eapply IH; eassumption.
Qed.

Ltac path_inv H :=
  inversion H; subst; clear H;
  try match goal with
  | Hs : tick_succ _ _ |- _ =>
      apply tick_succ_successor in Hs; simpl in Hs;
      repeat match type of Hs with
             | _ ∨ _ => destruct Hs as [Hs|Hs]
             | ∃ _, _ => destruct Hs as [? Hs]
             | False => destruct Hs
             end;
      try subst
  end.



Lemma Forall_zero_replicate (l : list Z) :
  Forall (λ x, x = 0) l → l = replicate (length l) 0.
Proof. induction 1 as [|x l -> _ IH]; simpl; [reflexivity | f_equal; exact IH]. Qed.

Lemma reachable_run nr_cpus nr_tasks s tr s' :
  reachable nr_cpus nr_tasks s → run s tr = Some s' → reachable nr_cpus nr_tasks s'.
Proof.
  revert s. induction tr as [|[t a] tr IH]; intros s Hr H; simpl in H.
  - injection H as <-. exact Hr.
  - destruct (step s t a) as [s1|] eqn:E; simpl in H; [|discriminate].
    eapply IH; [eapply reachable_step; eassumption | exact H].
Qed.

Lemma drained_ctrs nr_cpus s w p :
  inv s → wf nr_cpus s → pcs s !! w = Some p → drained p = true →
  ctrs_of s = replicate nr_cpus 0.
Proof.
  intros I [(ctrs & Hc & Hl) _ _ _] Hw Hd.
  pose proof (inv_drained _ I _ _ Hw Hd) as Hz.
  apply Forall_zero_replicate in Hz. rewrite Hz. f_equal.
  unfold ctrs_of. rewrite Hc. exact Hl.
Qed.

(** ** The write acquisition *)



(** ** The drain *)

Lemma eqm32_eq a b : a = b → eqm32 a b.
Proof. intros ->. reflexivity. Qed.

Lemma ctrs_frozen s w q t a s1 :
  inv s → pcs s !! w = Some q → holds_mutex q = true →
  q ≠ Sync_begin Acq → q ≠ Sync_wait Acq →
  step s t a = Some s1 → t ≠ w → ctrs_of s1 = ctrs_of s.
Proof.
  intros I Hw Hq N1 N2 H Hne. unfold ctrs_of.
  step_cases H; simpl; try reflexivity.
  - destruct (no_inflight _ _ _ _ _ _ I Hp Hw Hq); contradiction.
  - pose proof (holder_unique _ _ _ _ _ I Hp Hw eq_refl Hq). congruence.
Qed.

Lemma path_after_add q p l :
  path_to q p l →
  p = DW_down_write ∨ p = DW_wait_event ∨ p = DW_sleep ∨ p = Writing →
  q = DW_down_write ∨ q = DW_wait_event ∨ q = DW_sleep ∨ q = Writing.
Proof.
  induction 1 as [|p p' l Hs Hl IH]; intros Hp; [exact Hp|].
  apply IH. apply tick_succ_successor in Hs.
  destruct Hp as [-> | [-> | [-> | ->]]]; simpl in Hs; intuition.
Qed.

Lemma path_from_atomic_add v v0 l :
  path_to (DW_atomic_add v) (DW_atomic_add v0) l → v = v0.
Proof.
  intros H. inversion H as [|p p' l' Hs Hl]; subst; [reflexivity|].
  apply tick_succ_successor in Hs. simpl in Hs. subst p'.
  apply path_after_add in Hl; [|auto].
  destruct Hl as [?|[?|[?|?]]]; discriminate.
Qed.

Lemma drain_loop w v s1 tr : ∀ s i sum,
  inv s → pcs s !! w = Some (DW_clear i sum) →
  ticks_only w tr = true → run s tr = Some s1 →
  pcs s1 !! w = Some (DW_atomic_add v) →
  v = Int32.to_int (sum + Zsum (ctrs_of s)).
Proof.
  induction tr as [|[t a] tr IH]; intros s i sum I Hw Ht H Hv; simpl in H.
  - injection H as <-. congruence.
  - destruct (step s t a) as [s2|] eqn:E; simpl in H; [|discriminate].
    apply ticks_only_cons in Ht as [Ha Ht]. simpl in Ha.
    pose proof (inv_step _ _ _ _ I E) as I2.
    destruct (decide (t = w)) as [->|Hne].
    + destruct (Ha eq_refl) as [cpu ->].
      assert (Hlt : (w < length (pcs s))%nat) by (eapply lookup_lt_Some, Hw).
      pose proof (inv_clear _ I _ _ _ Hw) as Hz.
      unfold step in E. rewrite Hw in E. simpl in E.
      unfold ctrs_of in *.
      destruct (fast_read_ctr (brw s)) as [ctrs|] eqn:Hc; simpl in *; [|discriminate].
      destruct (Nat.ltb_spec i (length ctrs)) as [Hi|Hi]; injection E as <-.
      * destruct (lookup_lt_is_Some_2 ctrs i Hi) as [x Hx].
        rewrite (clear_fast_ctr_body_Some _ _ _ _ Hx) in *. simpl in *.
        rewrite (IH _ (S i) _ I2 (list_lookup_insert_eq _ _ _ Hlt) Ht H Hv). simpl.
        apply to_int_eqm. rewrite (Zsum_insert _ _ _ _ Hx), eqm32_to_unsigned, eqm32_to_unsigned.
        apply eqm32_eq. lia.
      * rewrite take_ge in Hz by lia. rewrite (Zsum_zero _ Hz), Z.add_0_r.
        pose proof (run_path _ _ _ _ _ _ H Ht (list_lookup_insert_eq _ _ _ Hlt) Hv) as P.
        apply path_from_atomic_add in P. exact P.
    + rewrite <- (ctrs_frozen _ _ _ _ _ _ I Hw eq_refl ltac:(discriminate)
                    ltac:(discriminate) E Hne).
      eapply IH; try eassumption.
      rewrite (step_other _ _ _ _ _ E); [exact Hw | congruence].
Qed.

(** C4. The drain, under any interleaving: from a reachable state in which
    the writer enters the loop of [clear_fast_ctr], whatever the other tasks
    do meanwhile, the value the loop returns is the sum of the per-cpu
    counters as they were when the loop began (the 32-bit sum, as the
    sequential [clear_fast_ctr] computes it), every per-cpu counter is left
    zero, and the [atomic_add] that follows makes [slow_read_ctr] its previous
    value plus that sum: in 32-bit arithmetic always, and as integers whenever
    the result is an [int]. Each counter enters the sum once: the counters
    are exactly those the sequential loop leaves, all zero, and the
    semaphore after the [atomic_add] is what the sequential [drain] gives. *)
Theorem drain_postcondition nr_cpus nr_tasks s w tr s1 v cpu :
  Z.of_nat nr_tasks < Int32.modulus →
  reachable nr_cpus nr_tasks s →
  pcs s !! w = Some (DW_clear 0 0) →
  ticks_only w tr = true →
  run s tr = Some s1 →
  pcs s1 !! w = Some (DW_atomic_add v) →
  v = (clear_fast_ctr (ctrs_of s)).1 ∧
  v = Int32.to_int (Zsum (ctrs_of s)) ∧
  ctrs_of s1 = replicate nr_cpus 0 ∧
  ctrs_of s1 = (clear_fast_ctr (ctrs_of s)).2 ∧
  ∃ s2, step s1 w (Tick cpu) = Some s2 ∧
        pcs s2 !! w = Some DW_down_write ∧
        drain (set_fast_read_ctr (fast_read_ctr (brw s)) (brw s1)) = Some (brw s2) ∧
        ctrs_of s2 = replicate nr_cpus 0 ∧
        slow_read_ctr (brw s2)
          = Int32.to_int (slow_read_ctr (brw s1) + Zsum (ctrs_of s)) ∧
        (Int32.in_range (slow_read_ctr (brw s1) + Zsum (ctrs_of s)) →
         slow_read_ctr (brw s2) = slow_read_ctr (brw s1) + Zsum (ctrs_of s)).
Proof.
  intros Hn Hr Hw Ht Hrun Hv.
  pose proof (inv_reachable _ _ _ Hn Hr) as I.
  pose proof (wf_reachable _ _ _ Hr) as W.
  pose proof (reachable_run _ _ _ _ _ Hr Hrun) as Hr1.
  pose proof (inv_reachable _ _ _ Hn Hr1) as I1.
  pose proof (wf_reachable _ _ _ Hr1) as W1.
  pose proof (drain_loop _ _ _ _ _ _ _ I Hw Ht Hrun Hv) as Ev.
  rewrite Z.add_0_l in Ev.
  pose proof (drained_ctrs _ _ _ _ I1 W1 Hv eq_refl) as Hz.
  rewrite clear_fast_ctr_spec. simpl.
  split; [exact Ev|]. split; [exact Ev|]. split; [exact Hz|].
  split.
  { rewrite Hz. f_equal. destruct W as [(ctrs & Hc & Hl) _ _ _].
    unfold ctrs_of. rewrite Hc. simpl. congruence. }
  assert (Hlt : (w < length (pcs s1))%nat) by (eapply lookup_lt_Some, Hv).
  unfold step. rewrite Hv. simpl. eexists. split; [reflexivity|]. simpl.
  split; [apply list_lookup_insert_eq, Hlt|].
  split.
  { destruct W as [(ctrs & Hc & Hl) _ _ _]. destruct W1 as [(ctrs1 & Hc1 & Hl1) _ _ _].
    unfold ctrs_of in Ev, Hz. rewrite Hc in Ev. rewrite Hc1 in Hz. simpl in Ev, Hz.
    rewrite (drain_spec _ ctrs) by exact Hc.
    rewrite <- Ev, Hl. unfold set_slow_read_ctr, set_fast_read_ctr. simpl.
    destruct (brw s1) as [f1 m1 r1 v1 q1]. simpl in *. congruence. }
  split; [exact Hz|].
  assert (E : atomic_add v (slow_read_ctr (brw s1))
              = Int32.to_int (slow_read_ctr (brw s1) + Zsum (ctrs_of s))).
  { unfold atomic_add. apply to_int_eqm. rewrite Ev, eqm32_to_int. reflexivity. }
  split; [exact E|]. intros Hin. rewrite E. apply to_int_in_range, Hin.
Qed.

Lemma drain_postcondition_witness :
  let s := after 2 2 reader_then_writer_at_drain in
  let tr := replicate 3 (1%nat, Tick 0) in
  let s1 := after 2 2 (reader_then_writer_at_drain ++ tr) in
  ctrs_of s = [1; 0] ∧
  slow_read_ctr (brw s1) = 0 ∧
  pcs s1 !! 1%nat = Some (DW_atomic_add 1) ∧
  ctrs_of s1 = replicate 2 0.
Proof.
  intros s tr s1. split; [reflexivity|]. split; [reflexivity|].
  split; [reflexivity|].
  apply (drain_postcondition 2 2 s 1%nat tr s1 1 0%nat).
  - reflexivity.
  - exists reader_then_writer_at_drain. reflexivity.
  - reflexivity.
  - reflexivity.
  - reflexivity.
  - reflexivity.
Defined.

(** ** No reader, no wait *)

Lemma no_reader_slow_zero nr_cpus s w q :
  inv s → wf nr_cpus s → pcs s !! w = Some q → drained q = true → local_sum q = 0 →
  ¬ read_side_open s → slow_read_ctr (brw s) = 0.
Proof.
  intros I W Hw Hd Hl Ho.
  pose proof (slow_is_count _ _ _ I Hw Hd Hl) as E.
  rewrite (Zsum_fmap_zero counted) in E.
  - rewrite <- (to_int_in_range _ (wf_slow _ _ W)). apply (to_int_eqm _ 0), E.
  - intros i x Hx. pose proof (counted_bounds x).
    destruct (Z.eq_dec (counted x) 1) as [E1|E1]; [|lia].
    exfalso. apply Ho. exists i, x. auto.
Qed.




Lemma read_side_openb_false s : read_side_openb s = false → ¬ read_side_open s.
Proof.
  unfold read_side_openb. intros H (r & p & Hp & Hc).
  assert (Hex : existsb (λ p, counted p =? 1) (pcs s) = true).
  { apply existsb_exists. exists p. split.
    - apply list_elem_of_In, list_elem_of_lookup. eauto.
    - apply Z.eqb_eq, Hc. }
  congruence.
Qed.



(** ** The read side *)

Lemma step_tick s t p cpu :
  pcs s !! t = Some p →
  step s t (Tick cpu)
  = match p with
    | UFC_preempt_disable _ | UFC_test _ _ | UFC_add _ _
    | UFC_preempt_enable _ _ => update_fast_ctr s t p cpu
    | DR_down_read | DR_atomic_inc | DR_up_read => percpu_down_read s t p
    | UR_dec_and_test | UR_wake_up_all => percpu_up_read s t p
    | Sync_begin _ | Sync_wait _ => synchronize_sched_expedited s t p
    | DW_mutex_lock | DW_clear _ _ | DW_atomic_add _ | DW_down_write
    | DW_wait_event | DW_sleep => percpu_down_write s t p
    | UW_up_write | UW_mutex_unlock => percpu_up_write s t p
    | Idle | Reading | Writing => None
    end.
Proof. intros Hp. unfold step. rewrite Hp. reflexivity. Qed.

Ltac run_step Hp := rewrite (step_tick _ _ _ _ Hp); simpl.

Ltac goto_done Hp :=
  eexists; split; [reflexivity|]; simpl;
  repeat split; try reflexivity;
  try (apply list_lookup_insert_eq; eapply lookup_lt_Some, Hp).

Lemma path_down_read l :
  path_to Reading (UFC_preempt_disable Down) l →
  ∃ c, l = [UFC_preempt_disable Down; UFC_test Down c; UFC_add Down c;
            UFC_preempt_enable Down true] ∨
       l = [UFC_preempt_disable Down; UFC_test Down c;
            UFC_preempt_enable Down false; DR_down_read; DR_atomic_inc;
            DR_up_read].
Proof.
  intros H. path_inv H.
  repeat match goal with H : path_to _ _ _ |- _ => path_inv H end; eauto.
Qed.

(** C3. [percpu_down_read], statement by statement, in a reachable state:
    the test inside the preemption-off region sends the reader to the
    [__this_cpu_add] when [writer_mutex] is not held and to the slow path
    when it is, changing nothing; on the fast path the add increments the
    slot of the cpu the reader runs on and nothing else, never blocks, and
    the call returns; on the slow path the reader takes [rw_sem] for reading
    (blocking while a writer holds it), increments [slow_read_ctr], releases
    [rw_sem] and returns. Under any interleaving, one complete invocation
    runs exactly the fast sequence or exactly the slow sequence. *)
Theorem percpu_down_read_paths nr_cpus nr_tasks s t :
  reachable nr_cpus nr_tasks s →
  (∀ c cpu, pcs s !! t = Some (UFC_test Down c) →
     ∃ s', step s t (Tick cpu) = Some s' ∧ brw s' = brw s ∧
           pcs s' !! t = Some (if mutex_is_locked (writer_mutex (brw s))
                               then UFC_preempt_enable Down false
                               else UFC_add Down c)) ∧
  (∀ c cpu, pcs s !! t = Some (UFC_add Down c) →
     ∃ s' ctrs x, step s t (Tick cpu) = Some s' ∧
           fast_read_ctr (brw s) = Some ctrs ∧ ctrs !! c = Some x ∧
           brw s' = set_fast_read_ctr
                      (Some (<[c := Int32.to_int (x + 1)]> ctrs)) (brw s) ∧
           pcs s' !! t = Some (UFC_preempt_enable Down true)) ∧
  (∀ b cpu, pcs s !! t = Some (UFC_preempt_enable Down b) →
     ∃ s', step s t (Tick cpu) = Some s' ∧ brw s' = brw s ∧
           pcs s' !! t = Some (if b then Reading else DR_down_read)) ∧
  (∀ cpu, pcs s !! t = Some DR_down_read →
     match rw_writer (rw_sem (brw s)) with
     | Some _ => step s t (Tick cpu) = None
     | None =>
         ∃ s', step s t (Tick cpu) = Some s' ∧
               brw s' = set_rw_sem
                          (mk_rwsem (S (rw_readers (rw_sem (brw s)))) None) (brw s) ∧
               pcs s' !! t = Some DR_atomic_inc
     end) ∧
  (∀ cpu, pcs s !! t = Some DR_atomic_inc →
     ∃ s', step s t (Tick cpu) = Some s' ∧
           brw s' = set_slow_read_ctr
                      (Int32.to_int (slow_read_ctr (brw s) + 1)) (brw s) ∧
           pcs s' !! t = Some DR_up_read) ∧
  (∀ cpu, pcs s !! t = Some DR_up_read →
     ∃ s', step s t (Tick cpu) = Some s' ∧
           brw s' = set_rw_sem
                      (mk_rwsem (pred (rw_readers (rw_sem (brw s))))
                                (rw_writer (rw_sem (brw s)))) (brw s) ∧
           pcs s' !! t = Some Reading) ∧
  (∀ tr s', pcs s !! t = Some (UFC_preempt_disable Down) →
     ticks_only t tr = true → run s tr = Some s' → pcs s' !! t = Some Reading →
     ∃ c, stmts t s tr = [UFC_preempt_disable Down; UFC_test Down c;
                          UFC_add Down c; UFC_preempt_enable Down true] ∨
          stmts t s tr = [UFC_preempt_disable Down; UFC_test Down c;
                          UFC_preempt_enable Down false; DR_down_read;
                          DR_atomic_inc; DR_up_read]).
Proof.
  intros Hr. pose proof (wf_reachable _ _ _ Hr) as [(ctrs & Hc & Hl) Hcpu _ _].
  repeat apply conj.
  - intros c cpu Hp. run_step Hp.
    destruct (mutex_is_locked (writer_mutex (brw s))); simpl; goto_done Hp.
  - intros c cpu Hp. run_step Hp.
    assert (Hlt : (c < length ctrs)%nat).
    { rewrite Hl. eapply Hcpu; [exact Hp | reflexivity]. }
    destruct (lookup_lt_is_Some_2 ctrs c Hlt) as [x Hx].
    rewrite Hc. simpl. unfold this_cpu_add. rewrite Hx. simpl.
    eexists _, ctrs, x. split; [reflexivity|]. simpl.
    split; [reflexivity|]. split; [exact Hx|]. split.
    + do 3 f_equal. apply to_int_eqm. rewrite !eqm32_to_unsigned. reflexivity.
    + apply list_lookup_insert_eq. eapply lookup_lt_Some, Hp.
  - intros b cpu Hp. run_step Hp. destruct b; goto_done Hp.
  - intros cpu Hp. run_step Hp. unfold down_read.
    destruct (rw_writer (rw_sem (brw s))); simpl; [reflexivity|]. goto_done Hp.
  - intros cpu Hp. run_step Hp. goto_done Hp.
  - intros cpu Hp. run_step Hp. goto_done Hp.
  - intros tr s' Hp Ht Hrun Hp'.
    apply path_down_read. eapply run_path; eassumption.
Qed.

Lemma path_up_read_slow l :
  path_to Idle UR_dec_and_test l →
  l = [UR_dec_and_test] ∨ l = [UR_dec_and_test; UR_wake_up_all].
Proof.
  intros H. path_inv H.
  all: repeat match goal with H : path_to _ _ _ |- _ => path_inv H end; eauto.
Qed.

(** C5. [percpu_up_read] when the fast-path test fails ([writer_mutex] is
    held): the reader leaves the region and runs [atomic_dec_and_test],
    which decrements [slow_read_ctr] and touches nothing else; it goes on to
    [wake_up_all] exactly when the decremented value is zero and otherwise
    returns without signalling; [wake_up_all] empties the wait queue, so that
    every sleeping writer can run again. Under any interleaving the slow
    branch runs the decrement, then at most the one wake-up. *)
Theorem percpu_up_read_slow_path s t :
  (∀ c cpu, pcs s !! t = Some (UFC_test Up c) →
     mutex_is_locked (writer_mutex (brw s)) = true →
     ∃ s', step s t (Tick cpu) = Some s' ∧ brw s' = brw s ∧
           pcs s' !! t = Some (UFC_preempt_enable Up false)) ∧
  (∀ cpu, pcs s !! t = Some (UFC_preempt_enable Up false) →
     ∃ s', step s t (Tick cpu) = Some s' ∧ brw s' = brw s ∧
           pcs s' !! t = Some UR_dec_and_test) ∧
  (∀ cpu, pcs s !! t = Some UR_dec_and_test →
     ∃ s', step s t (Tick cpu) = Some s' ∧
           brw s' = set_slow_read_ctr
                      (Int32.to_int (slow_read_ctr (brw s) - 1)) (brw s) ∧
           pcs s' !! t
           = Some (if Int32.to_int (slow_read_ctr (brw s) - 1) =? 0
                   then UR_wake_up_all else Idle)) ∧
  (∀ cpu, pcs s !! t = Some UR_wake_up_all →
     ∃ s', step s t (Tick cpu) = Some s' ∧
           brw s' = set_write_waitq [] (brw s) ∧
           pcs s' !! t = Some Idle ∧
           ∀ w cpu', pcs s !! w = Some DW_sleep →
             ∃ s'', step s' w (Tick cpu') = Some s'' ∧
                    pcs s'' !! w = Some DW_wait_event) ∧
  (∀ tr s', pcs s !! t = Some UR_dec_and_test →
     ticks_only t tr = true → run s tr = Some s' → pcs s' !! t = Some Idle →
     stmts t s tr = [UR_dec_and_test] ∨
     stmts t s tr = [UR_dec_and_test; UR_wake_up_all]).
Proof.
  repeat apply conj.
  - intros c cpu Hp Hm. run_step Hp. rewrite Hm. simpl. goto_done Hp.
  - intros cpu Hp. run_step Hp. goto_done Hp.
  - intros cpu Hp. run_step Hp. goto_done Hp.
  - intros cpu Hp. run_step Hp. eexists. split; [reflexivity|]. simpl.
    split; [reflexivity|].
    split; [apply list_lookup_insert_eq; eapply lookup_lt_Some, Hp|].
    intros w cpu' Hw.
    assert (Hne : t ≠ w) by congruence.
    assert (Hw' : <[t:=Idle]> (pcs s) !! w = Some DW_sleep)
      by (rewrite list_lookup_insert_ne by exact Hne; exact Hw).
    erewrite step_tick by exact Hw'. simpl.
    eexists. split; [reflexivity|]. simpl.
    apply list_lookup_insert_eq. rewrite length_insert. eapply lookup_lt_Some, Hw.
  - intros tr s' Hp Ht Hrun Hp'.
    apply path_up_read_slow. eapply run_path; eassumption.
Qed.

Lemma path_up_read l :
  path_to Idle (UFC_preempt_disable Up) l →
  ∃ c, l = [UFC_preempt_disable Up; UFC_test Up c; UFC_add Up c;
            UFC_preempt_enable Up true] ∨
       l = [UFC_preempt_disable Up; UFC_test Up c; UFC_preempt_enable Up false;
            UR_dec_and_test] ∨
       l = [UFC_preempt_disable Up; UFC_test Up c; UFC_preempt_enable Up false;
            UR_dec_and_test; UR_wake_up_all].
Proof.
  intros H. path_inv H.
  repeat match goal with H : path_to _ _ _ |- _ => path_inv H end; eauto.
Qed.

(** C7 as stated fails: task 0 acquires on the fast path, a writer then
    takes [writer_mutex], and task 0's release takes the slow branch
    ([atomic_dec_and_test]) although its acquire never ran the slow path. *)
Lemma release_matches_acquire_counterexample :
  stmts 0%nat (init_state 1 2) fast_acquire_slow_release
  = [UFC_preempt_disable Down; UFC_test Down 0; UFC_add Down 0;
     UFC_preempt_enable Down true;
     UFC_preempt_disable Up; UFC_test Up 0; UFC_preempt_enable Up false;
     UR_dec_and_test] ∧
  ¬ release_matches_acquire (init_state 1 2) fast_acquire_slow_release 0%nat.
Proof.
  split; [reflexivity|].
  intros H. unfold release_matches_acquire in H.
  assert (Hin : DR_atomic_inc ∈ stmts 0%nat (init_state 1 2) fast_acquire_slow_release).
  { apply H.
    - vm_compute. eauto.
    - vm_compute. do 7 apply list_elem_of_further. apply list_elem_of_here. }
  vm_compute in Hin.
  repeat (apply elem_of_cons in Hin as [Hin|Hin]; [discriminate|]).
  apply elem_of_nil in Hin. exact Hin.
Qed.

(** C7, amended. Which branch a release takes is decided by [writer_mutex]
    at the release-time test alone, whatever path the acquire took: the slow
    branch is taken exactly when another task is between its [mutex_lock]
    and its [mutex_unlock]. The accounting allows for this: the per-cpu
    counters, the slow counter and the writer's sum in flight add up, modulo
    2^32, to the number of counted readers. One complete invocation of
    [percpu_up_read] runs the fast sequence or the slow one. *)
Theorem release_path_follows_writer_mutex nr_cpus nr_tasks s t c cpu :
  Z.of_nat nr_tasks < Int32.modulus →
  reachable nr_cpus nr_tasks s →
  pcs s !! t = Some (UFC_test Up c) →
  (∃ s', step s t (Tick cpu) = Some s' ∧ brw s' = brw s ∧
         pcs s' !! t = Some (if mutex_is_locked (writer_mutex (brw s))
                             then UFC_preempt_enable Up false
                             else UFC_add Up c)) ∧
  (mutex_is_locked (writer_mutex (brw s)) = true ↔
   ∃ w q, w ≠ t ∧ pcs s !! w = Some q ∧ holds_mutex q = true) ∧
  eqm32 (Zsum (ctrs_of s) + slow_read_ctr (brw s) + Zsum (local_sum <$> pcs s))
        (Zsum (counted <$> pcs s)) ∧
  (∀ s0 tr s', pcs s0 !! t = Some (UFC_preempt_disable Up) →
     ticks_only t tr = true → run s0 tr = Some s' → pcs s' !! t = Some Idle →
     ∃ c, stmts t s0 tr = [UFC_preempt_disable Up; UFC_test Up c; UFC_add Up c;
                           UFC_preempt_enable Up true] ∨
          stmts t s0 tr = [UFC_preempt_disable Up; UFC_test Up c;
                           UFC_preempt_enable Up false; UR_dec_and_test] ∨
          stmts t s0 tr = [UFC_preempt_disable Up; UFC_test Up c;
                           UFC_preempt_enable Up false; UR_dec_and_test;
                           UR_wake_up_all]).
Proof.
  intros Hn Hr Hp.
  pose proof (inv_reachable _ _ _ Hn Hr) as I.
  pose proof (wf_reachable _ _ _ Hr) as W.
  repeat apply conj.
  - run_step Hp.
    destruct (mutex_is_locked (writer_mutex (brw s))); simpl; goto_done Hp.
  - intros Hm. destruct (writer_mutex (brw s)) as [w|] eqn:Ew; [|discriminate].
    destruct (wf_owner _ _ W _ Ew) as [q Hq].
    assert (Hh : holds_mutex q = true) by (apply (inv_mutex _ I _ _ Hq), Ew).
    exists w, q. split; [|auto]. intros ->. rewrite Hp in Hq.
    injection Hq as <-. discriminate.
  - intros (w & q & _ & Hq & Hh). apply (inv_mutex _ I _ _ Hq) in Hh.
    rewrite Hh. reflexivity.
  - apply (inv_count _ I).
  - intros s0 tr s' Hp0 Ht Hrun Hp'.
    apply path_up_read. eapply run_path; eassumption.
Qed.

Lemma release_path_follows_writer_mutex_witness :
  let s := after 1 2 (removelast (removelast (removelast fast_acquire_slow_release))) in
  pcs s !! 0%nat = Some (UFC_test Up 0) ∧
  mutex_is_locked (writer_mutex (brw s)) = true ∧
  ∃ s', step s 0%nat (Tick 0) = Some s' ∧ brw s' = brw s ∧
        pcs s' !! 0%nat = Some (UFC_preempt_enable Up false).
Proof.
  intros s. split; [reflexivity|]. split; [reflexivity|].
  refine (proj1 (release_path_follows_writer_mutex 1 2 s 0%nat 0%nat 0%nat _ _ _)).
  - reflexivity.
  - exists (removelast (removelast (removelast fast_acquire_slow_release))).
    reflexivity.
  - reflexivity.
Defined.

(** ** Readers without a writer *)

Lemma readers_only_step s t a s' :
  readers_only s → a ≠ Call E_percpu_down_write → step s t a = Some s' →
  readers_only s'.
Proof.
  intros [Hm Hs Hf] Ha H.
  step_cases H; pose proof (Hf _ _ Hp) as Hfp; simpl in Hfp; try discriminate;
    try contradiction; simpl in *.
  all: try (rewrite Hm in *; simpl in *; discriminate).
  all: split; simpl; try assumption.
  all: intros t' q Hq; split_lookup' Hq; try (eapply Hf; eassumption);
    try reflexivity.
  all: destruct o, success; simpl in *; try reflexivity; discriminate.
Qed.

Lemma no_writer_cons x tr :
  no_writer (x :: tr) = true →
  x.2 ≠ Call E_percpu_down_write ∧ no_writer tr = true.
Proof.
  unfold no_writer. simpl. intros [H1 H2]%andb_true_iff. split; [|exact H2].
  intros E. rewrite E in H1. discriminate.
Qed.

Lemma readers_only_run tr : ∀ s s',
  readers_only s → no_writer tr = true → run s tr = Some s' → readers_only s'.
Proof.
  induction tr as [|[t a] tr IH]; intros s s' R Hn H; simpl in H.
  - injection H as <-. exact R.
  - destruct (step s t a) as [s1|] eqn:E; simpl in H; [|discriminate].
    apply no_writer_cons in Hn as [Ha Hn].
    eapply IH; [eapply readers_only_step; eassumption | exact Hn | exact H].
Qed.

Lemma readers_only_init nr_cpus nr_tasks : readers_only (init_state nr_cpus nr_tasks).
Proof.
  split; simpl; try reflexivity.
  intros t p [-> _]%lookup_replicate. reflexivity.
Qed.

(** C6 as stated fails: with no writer at all, a reader that acquires on
    cpu 0 and releases on cpu 1 leaves cpu 1's counter at -1. *)
Lemma counters_never_negative_counterexample :
  no_writer migrating_reader = true ∧
  run (init_state 2 1) migrating_reader
  = Some (mk_state (mk_brw (Some [1; -1]) None (mk_rwsem 0 None) 0 [])
                   [UFC_preempt_enable Up true] []) ∧
  ¬ counters_never_negative 2 1.
Proof.
  split; [reflexivity|]. split; [reflexivity|].
  intros H.
  specialize (H migrating_reader _ eq_refl eq_refl).
  apply Forall_cons in H as [_ H]. apply Forall_cons in H as [H _].
  apply H. reflexivity.
Qed.

Lemma percpu_down_read_paths_witness :
  let s := after 2 2 [(0%nat, Call E_percpu_down_read)] in
  ∃ c, stmts 0%nat s (replicate 4 (0%nat, Tick 1))
       = [UFC_preempt_disable Down; UFC_test Down c; UFC_add Down c;
          UFC_preempt_enable Down true] ∨
       stmts 0%nat s (replicate 4 (0%nat, Tick 1))
       = [UFC_preempt_disable Down; UFC_test Down c;
          UFC_preempt_enable Down false; DR_down_read; DR_atomic_inc; DR_up_read].
Proof.
  intros s.
  assert (Hr : reachable 2 2 s)
    by (exists [(0%nat, Call E_percpu_down_read)]; reflexivity).
  destruct (percpu_down_read_paths 2 2 s 0%nat Hr)
    as (_ & _ & _ & _ & _ & _ & H).
  apply (H _ (after 2 2 ((0%nat, Call E_percpu_down_read)
                          :: replicate 4 (0%nat, Tick 1)))); reflexivity.
Defined.

Lemma percpu_up_read_slow_path_witness :
  let s := after 1 2 (removelast fast_acquire_slow_release) in
  pcs s !! 0%nat = Some UR_dec_and_test ∧
  slow_read_ctr (brw s) = 0 ∧
  ∃ s', step s 0%nat (Tick 0) = Some s' ∧
        brw s' = set_slow_read_ctr (-1) (brw s) ∧
        pcs s' !! 0%nat = Some Idle.
Proof.
  intros s. split; [reflexivity|]. split; [reflexivity|].
  destruct (percpu_up_read_slow_path s 0%nat) as (_ & _ & H & _).
  apply (H 0%nat). reflexivity.
Defined.

(** ** Progress *)

Lemma live_inv_init nr_cpus nr_tasks : live_inv (init_state nr_cpus nr_tasks).
Proof.
  split; simpl.
  - intros w t H. apply elem_of_nil in H. destruct H.
  - intros t H. apply elem_of_nil in H. destruct H.
  - intros w [=].
  - unfold ctrs_of. simpl. apply Forall_replicate.
    split; apply Z.leb_le; reflexivity.
Qed.

Lemma elem_tids_in_region_inv (l : list pc) : ∀ i t,
  t ∈ tids_in_region i l →
  ∃ k p, t = (i + k)%nat ∧ l !! k = Some p ∧ in_region p = true.
Proof.
  induction l as [|a l IH]; intros i t H; simpl in H.
  - apply elem_of_nil in H. destruct H.
  - apply elem_of_app in H as [H|H].
    + destruct (in_region a) eqn:E; [|apply elem_of_nil in H; destruct H].
      apply list_elem_of_singleton in H as ->.
      exists 0%nat, a. split; [lia|]. auto.
    + destruct (IH _ _ H) as (k & p & -> & Hk & Hp).
      exists (S k), p. split; [lia|]. auto.
Qed.

Lemma elem_preempt_enable_inv t0 pend w t :
  (w, t) ∈ preempt_enable t0 pend → (w, t) ∈ pend ∧ t ≠ t0.
Proof.
  unfold preempt_enable. intros H. apply list_elem_of_In, filter_In in H as [H1 H2].
  split; [apply list_elem_of_In, H1|]. simpl in H2.
  destruct (Nat.eqb_spec t t0); [discriminate | assumption].
Qed.

Lemma pending_frame (s : state) t p p' x :
  pcs s !! t = Some p → (in_region p = true → in_region p' = true) →
  (∃ q, pcs s !! x = Some q ∧ in_region q = true) →
  ∃ q, <[t := p']> (pcs s) !! x = Some q ∧ in_region q = true.
Proof.
  intros Hp Hr (q & Hq & Hrq). destruct (decide (x = t)) as [->|Hne].
  - exists p'. split; [apply list_lookup_insert_eq; eapply lookup_lt_Some, Hp|].
    apply Hr. congruence.
  - exists q. rewrite list_lookup_insert_ne by congruence. auto.
Qed.

Lemma pres_pending s t a s' : live_inv s → step s t a = Some s' →
  ∀ w x, (w, x) ∈ sync_pending s' →
    ∃ p, pcs s' !! x = Some p ∧ in_region p = true.
Proof.
  intros L H w x Hin. pose proof (li_pending _ L) as M.
  step_cases H; simpl in *;
    try (eapply pending_frame; [exact Hp | simpl; try discriminate; auto | eauto]; fail).
  - apply elem_preempt_enable_inv in Hin as [Hin Hne].
    destruct (M _ _ Hin) as (q & Hq & Hrq). exists q.
    rewrite list_lookup_insert_ne by congruence. auto.
  - unfold synchronize_begin in Hin. apply elem_of_app in Hin as [Hin|Hin].
    + apply list_elem_of_fmap in Hin as (y & [= -> ->] & Hy).
      apply elem_tids_in_region_inv in Hy as (k & q & -> & Hk & Hrq). simpl.
      eapply pending_frame; [exact Hp | simpl; discriminate | eauto].
    + eapply pending_frame; [exact Hp | simpl; discriminate | eauto].
Qed.

Lemma waitq_frame (s : state) t p p' x :
  pcs s !! t = Some p → p ≠ DW_sleep → p ≠ UR_wake_up_all →
  pcs s !! x = Some DW_sleep ∧ (∃ r, pcs s !! r = Some UR_wake_up_all) →
  <[t := p']> (pcs s) !! x = Some DW_sleep ∧
  (∃ r, <[t := p']> (pcs s) !! r = Some UR_wake_up_all).
Proof.
  intros Hp N1 N2 [Hx (r & Hr)]. split.
  - rewrite list_lookup_insert_ne; [exact Hx | congruence].
  - exists r. rewrite list_lookup_insert_ne; [exact Hr | congruence].
Qed.

Lemma pres_waitq s t a s' : inv s → live_inv s → step s t a = Some s' →
  ∀ x, x ∈ write_waitq (brw s') →
    pcs s' !! x = Some DW_sleep ∧
    (slow_read_ctr (brw s') ≠ 0 ∨ ∃ r, pcs s' !! r = Some UR_wake_up_all).
Proof.
  intros I L H x Hin. pose proof (li_waitq _ L) as M.
  step_cases H; simpl in *.
  all: try (apply elem_of_nil in Hin; destruct Hin).
  all: try (destruct (M _ Hin) as [Hx Hd];
            assert (Hne : x ≠ t) by congruence;
            split; [rewrite list_lookup_insert_ne by congruence; exact Hx|];
            destruct Hd as [Hd|(r & Hr)];
            [left; exact Hd
            |right; exists r; rewrite list_lookup_insert_ne by congruence; exact Hr];
            fail).
  - exfalso. destruct (M _ Hin) as [Hx _].
    eapply (no_rwsem_reader _ _ _ _ _ I Hx eq_refl Hp). reflexivity.
  - destruct (M _ Hin) as [Hx _]. assert (Hne : x ≠ t) by congruence.
    split; [rewrite list_lookup_insert_ne by congruence; exact Hx|].
    right. exists t. apply list_lookup_insert_eq. eapply lookup_lt_Some, Hp.
  - destruct (M _ Hin) as [Hx _]. assert (Hne : x ≠ t) by congruence.
    split; [rewrite list_lookup_insert_ne by congruence; exact Hx|].
    left. match goal with H : (_ =? 0) = false |- _ => apply Z.eqb_neq in H; exact H end.
  - exfalso. destruct (M _ Hin) as [Hx _].
    pose proof (holder_unique _ _ _ _ _ I Hp Hx eq_refl eq_refl). congruence.
  - match goal with H : negb _ = true |- _ =>
      apply negb_true_iff, Z.eqb_neq in H; unfold atomic_read in H; rename H into Hs end.
    apply elem_of_cons in Hin as [->|Hin].
    + split; [apply list_lookup_insert_eq; eapply lookup_lt_Some, Hp | left; exact Hs].
    + destruct (M _ Hin) as [Hx _]. assert (Hne : x ≠ t) by congruence.
      split; [rewrite list_lookup_insert_ne by congruence; exact Hx | left; exact Hs].
  - assert (Hne : x ≠ t).
    { intros ->. match goal with H : existsb _ _ = false |- _ => rename H into He end.
      assert (existsb (Nat.eqb t) (write_waitq (brw s)) = true); [|congruence].
      apply existsb_exists. exists t. split; [apply list_elem_of_In, Hin|].
      apply Nat.eqb_refl. }
    destruct (M _ Hin) as [Hx Hd].
    split; [rewrite list_lookup_insert_ne by congruence; exact Hx|].
    destruct Hd as [Hd|(r & Hr)]; [left; exact Hd|].
    right. exists r. rewrite list_lookup_insert_ne by congruence. exact Hr.
Qed.

Lemma pres_rw_owner s t a s' : live_inv s → step s t a = Some s' →
  ∀ w, rw_writer (rw_sem (brw s')) = Some w → is_Some (pcs s' !! w).
Proof.
  intros L H w Hw. pose proof (li_rw_owner _ L) as M.
  apply lookup_lt_is_Some. rewrite (step_length _ _ _ _ H).
  step_cases H; simpl in *; try (apply lookup_lt_is_Some, M, Hw); try discriminate.
  eapply lookup_lt_Some, Hp.
Qed.

Lemma pres_range s t a s' : live_inv s → step s t a = Some s' →
  Forall Int32.in_range (ctrs_of s').
Proof.
  intros L H. pose proof (li_range _ L) as M. unfold ctrs_of in *.
  step_cases H; simpl in *; try exact M.
  - match goal with H : this_cpu_add _ _ _ = Some _ |- _ =>
      apply this_cpu_add_Some in H as (x & Hx & ->) end.
    apply Forall_insert; [exact M | apply to_int_range].
  - unfold clear_fast_ctr_body. simpl.
    match goal with |- context [match ?l !! ?c with _ => _ end] =>
      destruct (l !! c) end; simpl; [|exact M].
    apply Forall_insert; [exact M|]. split; apply Z.leb_le; reflexivity.
Qed.

Lemma live_inv_step s t a s' :
  inv s → live_inv s → step s t a = Some s' → live_inv s'.
Proof.
  intros I L H. split.
  - eapply pres_pending; eassumption.
  - eapply pres_waitq; eassumption.
  - eapply pres_rw_owner; eassumption.
  - eapply pres_range; eassumption.
Qed.

Lemma live_inv_run tr : ∀ s s',
  inv s → live_inv s → run s tr = Some s' → live_inv s'.
Proof.
  induction tr as [|[t a] tr IH]; intros s s' I L H; simpl in H.
  - injection H as <-. exact L.
  - destruct (step s t a) as [s1|] eqn:E; simpl in H; [|discriminate].
    eapply IH; [eapply inv_step | eapply live_inv_step | exact H]; eassumption.
Qed.

Lemma live_inv_reachable nr_cpus nr_tasks s :
  Z.of_nat nr_tasks < Int32.modulus → reachable nr_cpus nr_tasks s → live_inv s.
Proof.
  intros Hn [tr H].
  eapply live_inv_run; [apply inv_init, Hn | apply live_inv_init | exact H].
Qed.

Lemma holds_rwsem_write_holds_mutex p :
  holds_rwsem_write p = true → holds_mutex p = true.
Proof. destruct p; simpl; congruence. Qed.

Lemma past_barrier_holds_mutex p : past_barrier p = true → holds_mutex p = true.
Proof. destruct p as [| | | | | | | | | | | | |[]|[]| | | | | | |]; simpl; congruence. Qed.

Lemma rw_writer_of s w q :
  inv s → live_inv s → pcs s !! w = Some q → holds_mutex q = true →
  holds_rwsem_write q = false → rw_writer (rw_sem (brw s)) = None.
Proof.
  intros I L Hw Hm Hr. destruct (rw_writer (rw_sem (brw s))) as [x|] eqn:E; [|reflexivity].
  destruct (li_rw_owner _ L _ E) as [qx Hx].
  assert (Hh : holds_rwsem_write qx = true) by (apply (inv_rwsem_w _ I _ _ Hx), E).
  pose proof (holder_unique _ _ _ _ _ I Hw Hx Hm (holds_rwsem_write_holds_mutex _ Hh)).
  subst x. rewrite Hw in Hx. injection Hx as <-. congruence.
Qed.

(** X1. Writers exclude each other: in a reachable state two tasks that are
    both between the return of [mutex_lock] and [mutex_unlock] are the same
    task, and [writer_mutex] names it. *)
Theorem writers_exclude_each_other nr_cpus nr_tasks s w1 w2 p1 p2 :
  Z.of_nat nr_tasks < Int32.modulus →
  reachable nr_cpus nr_tasks s →
  pcs s !! w1 = Some p1 → pcs s !! w2 = Some p2 →
  holds_mutex p1 = true → holds_mutex p2 = true →
  w1 = w2 ∧ writer_mutex (brw s) = Some w1.
Proof.
  intros Hn Hr H1 H2 M1 M2. pose proof (inv_reachable _ _ _ Hn Hr) as I.
  split; [eapply holder_unique; eassumption|].
  apply (inv_mutex _ I _ _ H1), M1.
Qed.

Lemma writers_exclude_each_other_witness :
  pcs (after 2 2 writer_releasing) !! 1%nat = Some (Sync_begin Rel) ∧
  writer_mutex (brw (after 2 2 writer_releasing)) = Some 1%nat.
Proof.
  split; [reflexivity|].
  refine (proj2 (writers_exclude_each_other 2 2 (after 2 2 writer_releasing)
                   1%nat 1%nat (Sync_begin Rel) (Sync_begin Rel) _ _ _ _ _ _)).
  - reflexivity.
  - exists writer_releasing. reflexivity.
  - reflexivity.
  - reflexivity.
  - reflexivity.
  - reflexivity.
Defined.

(** X3. "nobody can use fast_read_ctr": once a writer is past its first
    grace period and until it unlocks [writer_mutex], no step of another task
    changes a per-cpu counter, and no task stands between a successful
    fast-path test and its [__this_cpu_add]. *)
Theorem fast_counters_frozen nr_cpus nr_tasks s w q t a s' :
  Z.of_nat nr_tasks < Int32.modulus →
  reachable nr_cpus nr_tasks s →
  pcs s !! w = Some q → past_barrier q = true →
  t ≠ w → step s t a = Some s' →
  fast_read_ctr (brw s') = fast_read_ctr (brw s) ∧
  ∀ r o c, pcs s !! r ≠ Some (UFC_add o c).
Proof.
  intros Hn Hr Hw Hq Hne H. pose proof (inv_reachable _ _ _ Hn Hr) as I.
  pose proof (past_barrier_holds_mutex _ Hq) as Hm. split.
  - step_cases H; simpl; try reflexivity; try congruence.
    all: try (destruct (no_inflight _ _ _ _ _ _ I Hp Hw Hm); subst q; discriminate).
    all: try (pose proof (holder_unique _ _ _ _ _ I Hp Hw eq_refl Hm); congruence).
  - intros r o c Hr'.
    destruct (no_inflight _ _ _ _ _ _ I Hr' Hw Hm); subst q; discriminate.
Qed.

Lemma fast_counters_frozen_witness :
  step (after 2 2 writer_alone) 0%nat (Call E_percpu_down_read)
  = Some (after 2 2 (writer_alone ++ [(0%nat, Call E_percpu_down_read)])) ∧
  fast_read_ctr (brw (after 2 2 (writer_alone ++ [(0%nat, Call E_percpu_down_read)])))
  = fast_read_ctr (brw (after 2 2 writer_alone)).
Proof.
  split; [reflexivity|].
  refine (proj1 (fast_counters_frozen 2 2 (after 2 2 writer_alone) 1%nat Writing
                   0%nat (Call E_percpu_down_read) _ _ _ _ _ _ _)).
  - reflexivity.
  - exists writer_alone. reflexivity.
  - reflexivity.
  - reflexivity.
  - discriminate.
  - reflexivity.
Defined.

(** X4. "allow the new readers, but only the slow-path": while a writer is
    between its [up_write] and its [mutex_unlock], every fast-path test
    fails, a reader that reaches [down_read] gets [rw_sem] at once, and the
    per-cpu counters are all still zero. *)
Theorem release_admits_slow_readers nr_cpus nr_tasks s w q :
  Z.of_nat nr_tasks < Int32.modulus →
  reachable nr_cpus nr_tasks s →
  pcs s !! w = Some q → releasing q = true →
  (∀ r o c cpu, pcs s !! r = Some (UFC_test o c) →
     ∃ s', step s r (Tick cpu) = Some s' ∧
           pcs s' !! r = Some (UFC_preempt_enable o false)) ∧
  (∀ r cpu, pcs s !! r = Some DR_down_read →
     ∃ s', step s r (Tick cpu) = Some s' ∧ pcs s' !! r = Some DR_atomic_inc) ∧
  ctrs_of s = replicate nr_cpus 0.
Proof.
  intros Hn Hr Hw Hq. pose proof (inv_reachable _ _ _ Hn Hr) as I.
  pose proof (live_inv_reachable _ _ _ Hn Hr) as L.
  pose proof (wf_reachable _ _ _ Hr) as W.
  assert (Hm : holds_mutex q = true) by (destruct q as [| | | | | | | | | | | | |[]|[]| | | | | | |]; simpl in *; congruence).
  assert (Hnw : holds_rwsem_write q = false) by (destruct q; simpl in *; congruence).
  assert (Hd : drained q = true) by (destruct q as [| | | | | | | | | | | | |[]|[]| | | | | | |]; simpl in *; congruence).
  pose proof (proj1 (inv_mutex _ I _ _ Hw) Hm) as Emu.
  pose proof (rw_writer_of _ _ _ I L Hw Hm Hnw) as Erw.
  repeat apply conj.
  - intros r o c cpu Hp. run_step Hp. rewrite Emu. simpl. goto_done Hp.
  - intros r cpu Hp. run_step Hp. unfold down_read. rewrite Erw. simpl. goto_done Hp.
  - eapply drained_ctrs; eassumption.
Qed.

Lemma release_admits_slow_readers_witness :
  ctrs_of (after 2 2 writer_releasing) = replicate 2 0.
Proof.
  refine (proj2 (proj2 (release_admits_slow_readers 2 2 (after 2 2 writer_releasing)
                          1%nat (Sync_begin Rel) _ _ _ _))).
  - reflexivity.
  - exists writer_releasing. reflexivity.
  - reflexivity.
  - reflexivity.
Defined.

Lemma path_up_write l :
  path_to Idle UW_up_write l →
  l = [UW_up_write; Sync_begin Rel; Sync_wait Rel; UW_mutex_unlock].
Proof.
  intros H. path_inv H.
  repeat match goal with H : path_to _ _ _ |- _ => path_inv H end; eauto.
Qed.

(** X2. One invocation of [percpu_up_write], under any interleaving, runs
    [up_write], the grace period and [mutex_unlock], in this order and
    nothing else. [up_write] leaves [rw_sem] free with the mutex still held;
    [mutex_unlock] never blocks and leaves the mutex free, [rw_sem] without a
    writer and every per-cpu counter zero. *)
Theorem percpu_up_write_steps nr_cpus nr_tasks s w :
  Z.of_nat nr_tasks < Int32.modulus →
  reachable nr_cpus nr_tasks s →
  (∀ tr s', pcs s !! w = Some UW_up_write → ticks_only w tr = true →
     run s tr = Some s' → pcs s' !! w = Some Idle →
     stmts w s tr = [UW_up_write; Sync_begin Rel; Sync_wait Rel; UW_mutex_unlock]) ∧
  (∀ cpu, pcs s !! w = Some UW_up_write →
     ∃ s', step s w (Tick cpu) = Some s' ∧
           rw_sem (brw s') = mk_rwsem 0 None ∧
           writer_mutex (brw s') = Some w ∧
           pcs s' !! w = Some (Sync_begin Rel)) ∧
  (∀ cpu, pcs s !! w = Some UW_mutex_unlock →
     ∃ s', step s w (Tick cpu) = Some s' ∧
           writer_mutex (brw s') = None ∧
           rw_writer (rw_sem (brw s')) = None ∧
           ctrs_of s' = replicate nr_cpus 0 ∧
           pcs s' !! w = Some Idle).
Proof.
  intros Hn Hr. pose proof (inv_reachable _ _ _ Hn Hr) as I.
  pose proof (live_inv_reachable _ _ _ Hn Hr) as L.
  pose proof (wf_reachable _ _ _ Hr) as W.
  repeat apply conj.
  - intros tr s' Hw Ht Hrun Hw'. apply path_up_write. eapply run_path; eassumption.
  - intros cpu Hw. run_step Hw. eexists. split; [reflexivity|]. simpl.
    pose proof (inv_rwsem_excl _ I) as Hx.
    pose proof (proj1 (inv_rwsem_w _ I _ _ Hw) eq_refl) as Erw.
    rewrite Erw in Hx. unfold up_write. rewrite (Hx (ex_intro _ w eq_refl)).
    split; [reflexivity|].
    split; [apply (inv_mutex _ I _ _ Hw); reflexivity|].
    apply list_lookup_insert_eq. eapply lookup_lt_Some, Hw.
  - intros cpu Hw. run_step Hw. eexists. split; [reflexivity|].
    unfold goto, ctrs_of. simpl.
    split; [reflexivity|].
    split; [exact (rw_writer_of _ _ _ I L Hw eq_refl eq_refl)|].
    split; [exact (drained_ctrs _ _ _ _ I W Hw eq_refl)|].
    apply list_lookup_insert_eq. eapply lookup_lt_Some, Hw.
Qed.

Lemma percpu_up_write_steps_witness :
  let s := after 2 2 (writer_alone ++ [(1%nat, Call E_percpu_up_write)]) in
  stmts 1%nat s (replicate 4 (1%nat, Tick 0))
  = [UW_up_write; Sync_begin Rel; Sync_wait Rel; UW_mutex_unlock].
Proof.
  intros s.
  refine (proj1 (percpu_up_write_steps 2 2 s 1%nat _ _) _
            (after 2 2 (writer_alone ++ (1%nat, Call E_percpu_up_write)
                        :: replicate 4 (1%nat, Tick 0))) _ _ _ _).
  - reflexivity.
  - exists (writer_alone ++ [(1%nat, Call E_percpu_up_write)]). reflexivity.
  - reflexivity.
  - reflexivity.
  - reflexivity.
  - reflexivity.
Defined.

Lemma read_side_openb_true s : read_side_openb s = true → read_side_open s.
Proof.
  unfold read_side_openb. intros H. apply existsb_exists in H as (p & Hin & Hc).
  apply list_elem_of_In, list_elem_of_lookup in Hin as [r Hr].
  exists r, p. split; [exact Hr | apply Z.eqb_eq, Hc].
Qed.

Lemma sleeper_in_queue s w cpu :
  pcs s !! w = Some DW_sleep → step s w (Tick cpu) = None →
  w ∈ write_waitq (brw s).
Proof.
  intros Hw H. rewrite (step_tick _ _ _ _ Hw) in H. simpl in H.
  destruct (existsb (Nat.eqb w) (write_waitq (brw s))) eqn:E; [|discriminate].
  apply existsb_exists in E as (x & Hin & Hx). apply Nat.eqb_eq in Hx. subst x.
  apply list_elem_of_In, Hin.
Qed.

(** X5. No wake-up is lost: a writer that is asleep in [wait_event] and
    cannot run has a reader about to call [wake_up_all], or [slow_read_ctr]
    is not zero and some reader is still counted. *)
Theorem no_lost_wakeup nr_cpus nr_tasks s w cpu :
  Z.of_nat nr_tasks < Int32.modulus →
  reachable nr_cpus nr_tasks s →
  pcs s !! w = Some DW_sleep →
  step s w (Tick cpu) = None →
  (∃ r, pcs s !! r = Some UR_wake_up_all) ∨
  (slow_read_ctr (brw s) ≠ 0 ∧ read_side_open s).
Proof.
  intros Hn Hr Hw H. pose proof (inv_reachable _ _ _ Hn Hr) as I.
  pose proof (live_inv_reachable _ _ _ Hn Hr) as L.
  pose proof (wf_reachable _ _ _ Hr) as W.
  destruct (li_waitq _ L _ (sleeper_in_queue _ _ _ Hw H)) as [_ [Hs|Hr']];
    [right | left; exact Hr'].
  split; [exact Hs|].
  destruct (read_side_openb s) eqn:E; [apply read_side_openb_true, E|].
  exfalso. apply Hs.
  eapply (no_reader_slow_zero _ _ _ _ I W Hw eq_refl eq_refl).
  apply read_side_openb_false, E.
Qed.

Lemma no_lost_wakeup_witness :
  pcs (after 2 2 writer_sleeps) = [Reading; DW_sleep] ∧
  read_side_open (after 2 2 writer_sleeps).
Proof.
  split; [reflexivity|].
  destruct (no_lost_wakeup 2 2 (after 2 2 writer_sleeps) 1%nat 0%nat)
    as [(r & Hr)|[_ H]].
  - reflexivity.
  - exists writer_sleeps. reflexivity.
  - reflexivity.
  - reflexivity.
  - exfalso. destruct r as [|[|r]]; vm_compute in Hr; discriminate.
  - exact H.
Defined.

Lemma synchronize_done_false w s :
  synchronize_done w s = false → ∃ x, (w, x) ∈ sync_pending s.
Proof.
  unfold synchronize_done. induction (sync_pending s) as [|[w0 x] l IH]; simpl;
    [discriminate|].
  destruct (Nat.eqb_spec w0 w) as [->|Hne]; simpl.
  - intros _. exists x. apply list_elem_of_here.
  - intros H. destruct (IH H) as [y Hy]. exists y. apply list_elem_of_further, Hy.
Qed.

Lemma Zsum_fmap_nonzero {A} (f : A → Z) (l : list A) :
  Zsum (f <$> l) ≠ 0 → ∃ i x, l !! i = Some x ∧ f x ≠ 0.
Proof.
  induction l as [|a l IH]; [simpl; congruence|].
  rewrite Zsum_fmap_cons. intros H.
  destruct (Z.eq_dec (f a) 0) as [E|E].
  - destruct IH as (i & x & Hi & Hx); [lia|]. exists (S i), x. auto.
  - exists 0%nat, a. auto.
Qed.

Lemma stuck_may_block nr_cpus s t p :
  (0 < nr_cpus)%nat → wf nr_cpus s → stuck s →
  pcs s !! t = Some p → may_block p = true.
Proof.
  intros Hc [(ctrs & Hct & Hl) Hcpu _ _] Hs Hp.
  specialize (Hs t 0%nat). rewrite (step_tick _ _ _ _ Hp) in Hs.
  destruct p; simpl in *; try reflexivity; try discriminate.
  - rewrite Hct in Hs. simpl in Hs.
    destruct (Nat.ltb_spec 0 (length ctrs)); [discriminate | lia].
  - destruct (negb _); discriminate.
  - rewrite Hct in Hs. simpl in Hs.
    assert (Hlt : (cpu < length ctrs)%nat).
    { rewrite Hl. eapply Hcpu; [exact Hp | reflexivity]. }
    destruct (lookup_lt_is_Some_2 ctrs cpu Hlt) as [x Hx].
    unfold this_cpu_add in Hs. rewrite Hx in Hs. discriminate.
  - rewrite Hct in Hs. simpl in Hs. destruct (_ <? _)%nat; discriminate.
  - destruct (negb _); discriminate.
Qed.

Section Stuck.
Context (nr_cpus : nat) (s : state).
Hypothesis (Hc : (0 < nr_cpus)%nat) (I : inv s) (L : live_inv s)
           (W : wf nr_cpus s) (Hs : stuck s).

Lemma stuck_no_sync_wait t o : pcs s !! t ≠ Some (Sync_wait o).
Proof.
  intros Hp. pose proof (Hs t 0%nat) as H.
  rewrite (step_tick _ _ _ _ Hp) in H. simpl in H.
  destruct (synchronize_done t s) eqn:E; [discriminate|].
  apply synchronize_done_false in E as [x Hx].
  destruct (li_pending _ L _ _ Hx) as (q & Hq & Hr).
  pose proof (stuck_may_block _ _ _ _ Hc W Hs Hq).
  destruct q; simpl in *; discriminate.
Qed.

Lemma stuck_no_rw_readers : rw_readers (rw_sem (brw s)) = O.
Proof.
  pose proof (inv_rwsem_r _ I) as R.
  rewrite Zsum_fmap_zero in R; [lia|].
  intros i x Hx. pose proof (stuck_may_block _ _ _ _ Hc W Hs Hx).
  destruct x; simpl in *; congruence.
Qed.

Lemma stuck_sleeper t :
  pcs s !! t = Some DW_sleep → ∃ u, pcs s !! u = Some Reading.
Proof.
  intros Hp.
  destruct (li_waitq _ L _ (sleeper_in_queue _ _ _ Hp (Hs t 0%nat)))
    as [_ [Hsl|(r & Hr)]].
  - destruct (read_side_openb s) eqn:E.
    + apply read_side_openb_true in E as (r & p & Hr & Hcn).
      exists r. pose proof (stuck_may_block _ _ _ _ Hc W Hs Hr).
      destruct p as [| | |[]|[]|[]|[] []| | | | | | | | | | | | | | |];
        simpl in *; try discriminate. exact Hr.
    + exfalso. apply Hsl.
      eapply (no_reader_slow_zero _ _ _ _ I W Hp eq_refl eq_refl).
      apply read_side_openb_false, E.
  - pose proof (stuck_may_block _ _ _ _ Hc W Hs Hr). discriminate.
Qed.

Lemma stuck_no_down_write t : pcs s !! t ≠ Some DW_down_write.
Proof.
  intros Hp. pose proof (Hs t 0%nat) as H.
  rewrite (step_tick _ _ _ _ Hp) in H. simpl in H.
  unfold down_write in H.
  rewrite (rw_writer_of _ _ _ I L Hp eq_refl eq_refl), stuck_no_rw_readers in H.
  discriminate.
Qed.

Lemma stuck_rwsem_writer x q :
  pcs s !! x = Some q → holds_rwsem_write q = true →
  ∃ u, pcs s !! u = Some Reading ∨ pcs s !! u = Some Writing.
Proof.
  intros Hx Hq. pose proof (stuck_may_block _ _ _ _ Hc W Hs Hx).
  destruct q; simpl in *; try discriminate.
  - exists x. auto.
  - destruct (stuck_sleeper _ Hx) as [u Hu]. exists u. auto.
Qed.

Lemma stuck_mutex_holder x q :
  pcs s !! x = Some q → holds_mutex q = true →
  ∃ u, pcs s !! u = Some Reading ∨ pcs s !! u = Some Writing.
Proof.
  intros Hx Hq. pose proof (stuck_may_block _ _ _ _ Hc W Hs Hx).
  destruct q; simpl in *; try discriminate.
  - exists x. auto.
  - exfalso. eapply stuck_no_sync_wait, Hx.
  - exfalso. eapply stuck_no_down_write, Hx.
  - destruct (stuck_sleeper _ Hx) as [u Hu]. exists u. auto.
Qed.

Lemma stuck_in_call t p :
  pcs s !! t = Some p → in_call p = true →
  ∃ u, pcs s !! u = Some Reading ∨ pcs s !! u = Some Writing.
Proof.
  intros Hp Hin. pose proof (stuck_may_block _ _ _ _ Hc W Hs Hp) as Hb.
  pose proof (Hs t 0%nat) as H. rewrite (step_tick _ _ _ _ Hp) in H.
  destruct p; simpl in *; try discriminate.
  - unfold down_read in H.
    destruct (rw_writer (rw_sem (brw s))) as [x|] eqn:E; [|discriminate].
    destruct (li_rw_owner _ L _ E) as [q Hq].
    eapply stuck_rwsem_writer; [exact Hq|]. apply (inv_rwsem_w _ I _ _ Hq), E.
  - unfold mutex_lock in H.
    destruct (writer_mutex (brw s)) as [x|] eqn:E; [|discriminate].
    destruct (wf_owner _ _ W _ E) as [q Hq].
    eapply stuck_mutex_holder; [exact Hq|]. apply (inv_mutex _ I _ _ Hq), E.
  - exfalso. eapply stuck_no_sync_wait, Hp.
  - exfalso. eapply stuck_no_down_write, Hp.
  - destruct (stuck_sleeper _ Hp) as [u Hu]. exists u. auto.
Qed.
End Stuck.

(** X6. The semaphore does not deadlock on its own: in a reachable state
    (at least one cpu) where no task can run a statement, a task that is
    inside one of the four functions is waiting for a user: some task is in
    its read section or its write section. *)
Theorem no_internal_deadlock nr_cpus nr_tasks s t p :
  (0 < nr_cpus)%nat →
  Z.of_nat nr_tasks < Int32.modulus →
  reachable nr_cpus nr_tasks s →
  stuck s →
  pcs s !! t = Some p → in_call p = true →
  ∃ u, pcs s !! u = Some Reading ∨ pcs s !! u = Some Writing.
Proof.
  intros Hc Hn Hr Hs Hp Hin.
  eapply (stuck_in_call nr_cpus s Hc (inv_reachable _ _ _ Hn Hr)
            (live_inv_reachable _ _ _ Hn Hr) (wf_reachable _ _ _ Hr) Hs);
    eassumption.
Qed.

Lemma no_internal_deadlock_witness :
  stuck (after 2 2 writer_sleeps) ∧
  ∃ u, pcs (after 2 2 writer_sleeps) !! u = Some Reading ∨
       pcs (after 2 2 writer_sleeps) !! u = Some Writing.
Proof.
  assert (Hs : stuck (after 2 2 writer_sleeps)).
  { intros t cpu. destruct t as [|[|t]]; reflexivity. }
  split; [exact Hs|].
  apply (no_internal_deadlock 2 2 (after 2 2 writer_sleeps) 1%nat DW_sleep).
  - apply Nat.lt_0_succ.
  - reflexivity.
  - exists writer_sleeps. reflexivity.
  - exact Hs.
  - reflexivity.
  - reflexivity.
Defined.

Lemma all_idle_lookup (s : state) t p :
  Forall (λ p, p = Idle) (pcs s) → pcs s !! t = Some p → p = Idle.
Proof.
  intros H Hp. rewrite Forall_forall in H. apply H.
  apply list_elem_of_lookup. eauto.
Qed.

(** X7. When every task is back outside, the semaphore is free: the mutex
    is unlocked, [rw_sem] has neither readers nor a writer, the wait queue is
    empty, no grace period is pending, and the counters balance: a drain
    would leave [slow_read_ctr] at zero, with every per-cpu counter zero. *)
Theorem quiescent_state nr_cpus nr_tasks s :
  Z.of_nat nr_tasks < Int32.modulus →
  reachable nr_cpus nr_tasks s →
  Forall (λ p, p = Idle) (pcs s) →
  writer_mutex (brw s) = None ∧
  rw_sem (brw s) = mk_rwsem 0 None ∧
  write_waitq (brw s) = [] ∧
  sync_pending s = [] ∧
  ∃ b, drain (brw s) = Some b ∧
       slow_read_ctr b = 0 ∧
       fast_read_ctr b = Some (replicate nr_cpus 0).
Proof.
  intros Hn Hr Hidle. pose proof (inv_reachable _ _ _ Hn Hr) as I.
  pose proof (live_inv_reachable _ _ _ Hn Hr) as L.
  pose proof (wf_reachable _ _ _ Hr) as W.
  assert (Hmu : writer_mutex (brw s) = None).
  { destruct (writer_mutex (brw s)) as [w|] eqn:E; [|reflexivity].
    destruct (wf_owner _ _ W _ E) as [q Hq].
    pose proof (proj2 (inv_mutex _ I _ _ Hq) E) as Hh.
    rewrite (all_idle_lookup _ _ _ Hidle Hq) in Hh. discriminate. }
  assert (Hrw : rw_writer (rw_sem (brw s)) = None).
  { destruct (rw_writer (rw_sem (brw s))) as [w|] eqn:E; [|reflexivity].
    destruct (li_rw_owner _ L _ E) as [q Hq].
    pose proof (proj2 (inv_rwsem_w _ I _ _ Hq) E) as Hh.
    rewrite (all_idle_lookup _ _ _ Hidle Hq) in Hh. discriminate. }
  assert (Hrd : rw_readers (rw_sem (brw s)) = O).
  { pose proof (inv_rwsem_r _ I) as R. rewrite Zsum_fmap_zero in R; [lia|].
    intros i x Hx. rewrite (all_idle_lookup _ _ _ Hidle Hx). reflexivity. }
  split; [exact Hmu|]. split.
  { destruct (rw_sem (brw s)); simpl in *. congruence. }
  split.
  { destruct (write_waitq (brw s)) as [|x l] eqn:E; [reflexivity|].
    destruct (li_waitq _ L x) as [Hx _]; [rewrite E; apply list_elem_of_here|].
    pose proof (all_idle_lookup _ _ _ Hidle Hx). discriminate. }
  split.
  { destruct (sync_pending s) as [|[w x] l] eqn:E; [reflexivity|].
    destruct (li_pending _ L w x) as (q & Hq & Hrq); [rewrite E; apply list_elem_of_here|].
    rewrite (all_idle_lookup _ _ _ Hidle Hq) in Hrq. discriminate. }
  destruct W as [(ctrs & Hc & Hl) _ _ _].
  rewrite (drain_spec _ _ Hc). eexists. split; [reflexivity|]. simpl.
  split; [|rewrite Hl; reflexivity].
  pose proof (inv_count _ I) as M. unfold ctrs_of in M. rewrite Hc in M. simpl in M.
  rewrite !Zsum_fmap_zero in M;
    try (intros i x Hx; rewrite (all_idle_lookup _ _ _ Hidle Hx); reflexivity).
  unfold atomic_add. apply (to_int_eqm _ 0). rewrite eqm32_to_int.
  eapply eqm32_shift; [exact M | lia].
Qed.

Lemma quiescent_state_witness :
  pcs (after 2 2 write_cycle_done)
  = [Idle; Idle] ∧
  writer_mutex (brw (after 2 2 write_cycle_done))
  = None.
Proof.
  split; [reflexivity|].
  refine (proj1 (quiescent_state 2 2 _ _ _ _)).
  - reflexivity.
  - exists write_cycle_done.
    reflexivity.
  - repeat constructor.
Defined.

(** ** Readers among themselves *)

Lemma run_app tr1 tr2 : ∀ s, run s (tr1 ++ tr2) = run s tr1 ≫= λ s', run s' tr2.
Proof.
  induction tr1 as [|[t a] tr1 IH]; intros s; simpl; [reflexivity|].
  destruct (step s t a); simpl; [apply IH | reflexivity].
Qed.

Ltac tick_here Hlt :=
  unfold goto at 1;
  erewrite step_tick
    by (simpl; apply list_lookup_insert_eq; rewrite ?length_insert; exact Hlt);
  simpl.

Lemma update_fast_ctr_fast nr_cpus s t o c :
  wf nr_cpus s → writer_mutex (brw s) = None → (c < nr_cpus)%nat →
  pcs s !! t = Some (UFC_preempt_disable o) →
  ∃ ctrs x, fast_read_ctr (brw s) = Some ctrs ∧ ctrs !! c = Some x ∧
    run s (replicate 4 (t, Tick c))
    = Some (mk_state
              (set_fast_read_ctr
                 (Some (<[c := Int32.to_int (Int32.to_unsigned x + fast_ctr_val o)]> ctrs))
                 (brw s))
              (<[t := update_fast_ctr_return o true]> (pcs s))
              (preempt_enable t (sync_pending s))).
Proof.
  intros [(ctrs & Hc & Hl) _ _ _] Hm Hcpu Hp.
  assert (Hlt : (t < length (pcs s))%nat) by (eapply lookup_lt_Some, Hp).
  assert (Hc' : (c < length ctrs)%nat) by lia.
  destruct (lookup_lt_is_Some_2 ctrs c Hc') as [x Hx].
  exists ctrs, x. split; [exact Hc|]. split; [exact Hx|].
  simpl. rewrite (step_tick _ _ _ _ Hp). simpl. rewrite Hc. simpl.
  destruct (Nat.ltb_spec c (length ctrs)) as [_|?]; [|lia]. simpl.
  tick_here Hlt. rewrite Hm. simpl.
  tick_here Hlt. rewrite Hc. simpl. unfold this_cpu_add. rewrite Hx. simpl.
  tick_here Hlt. rewrite !list_insert_insert_eq. reflexivity.
Qed.

Lemma call_step s t f p p' :
  pcs s !! t = Some p → call f p = Some p' →
  step s t (Call f) = Some (goto t p' (brw s) s).
Proof. intros Hp Hc. unfold step. rewrite Hp. simpl. rewrite Hc. reflexivity. Qed.

Lemma wf_goto nr_cpus s t p :
  wf nr_cpus s → cpu_of p = None → (t < length (pcs s))%nat →
  wf nr_cpus (goto t p (brw s) s).
Proof.
  intros [Hc Hcpu Hs Ho] Hn Hlt. split; simpl; try assumption.
  - intros t' q c Hq Hcq. split_lookup' Hq; try congruence; eauto.
  - intros w Hw. apply lookup_lt_is_Some. rewrite length_insert.
    apply lookup_lt_is_Some, Ho, Hw.
Qed.

Lemma acquire_read_run nr_cpus s t c :
  wf nr_cpus s → writer_mutex (brw s) = None → (c < nr_cpus)%nat →
  pcs s !! t = Some Idle →
  ∃ ctrs x, fast_read_ctr (brw s) = Some ctrs ∧ ctrs !! c = Some x ∧
    run s (acquire_read t c)
    = Some (mk_state
              (set_fast_read_ctr
                 (Some (<[c := Int32.to_int (Int32.to_unsigned x + fast_ctr_val Down)]> ctrs))
                 (brw s))
              (<[t := Reading]> (pcs s))
              (preempt_enable t (sync_pending s))).
Proof.
  intros W Hm Hcpu Hp.
  assert (Hlt : (t < length (pcs s))%nat) by (eapply lookup_lt_Some, Hp).
  unfold acquire_read. cbn [run].
  rewrite (call_step _ _ E_percpu_down_read _ (UFC_preempt_disable Down) Hp eq_refl).
  cbn [mbind option_bind].
  destruct (update_fast_ctr_fast nr_cpus (goto t (UFC_preempt_disable Down) (brw s) s)
              t Down c) as (ctrs & x & Hc & Hx & Hrun).
  - apply wf_goto; [exact W | reflexivity | exact Hlt].
  - exact Hm.
  - exact Hcpu.
  - simpl. apply list_lookup_insert_eq, Hlt.
  - exists ctrs, x. split; [exact Hc|]. split; [exact Hx|].
    rewrite Hrun. simpl. rewrite list_insert_insert_eq. reflexivity.
Qed.

Lemma release_read_run nr_cpus s t c :
  wf nr_cpus s → writer_mutex (brw s) = None → (c < nr_cpus)%nat →
  pcs s !! t = Some Reading →
  ∃ ctrs x, fast_read_ctr (brw s) = Some ctrs ∧ ctrs !! c = Some x ∧
    run s (release_read t c)
    = Some (mk_state
              (set_fast_read_ctr
                 (Some (<[c := Int32.to_int (Int32.to_unsigned x + fast_ctr_val Up)]> ctrs))
                 (brw s))
              (<[t := Idle]> (pcs s))
              (preempt_enable t (sync_pending s))).
Proof.
  intros W Hm Hcpu Hp.
  assert (Hlt : (t < length (pcs s))%nat) by (eapply lookup_lt_Some, Hp).
  unfold release_read. cbn [run].
  rewrite (call_step _ _ E_percpu_up_read _ (UFC_preempt_disable Up) Hp eq_refl).
  cbn [mbind option_bind].
  destruct (update_fast_ctr_fast nr_cpus (goto t (UFC_preempt_disable Up) (brw s) s)
              t Up c) as (ctrs & x & Hc & Hx & Hrun).
  - apply wf_goto; [exact W | reflexivity | exact Hlt].
  - exact Hm.
  - exact Hcpu.
  - simpl. apply list_lookup_insert_eq, Hlt.
  - exists ctrs, x. split; [exact Hc|]. split; [exact Hx|].
    rewrite Hrun. simpl. rewrite list_insert_insert_eq. reflexivity.
Qed.

Lemma preempt_enable_none t (pend : list (nat * nat)) :
  (∀ w, (w, t) ∉ pend) → preempt_enable t pend = pend.
Proof.
  unfold preempt_enable. induction pend as [|[w x] l IH]; intros H; [reflexivity|].
  simpl. destruct (Nat.eqb_spec x t) as [->|Hne]; simpl.
  - exfalso. apply (H w). apply list_elem_of_here.
  - f_equal. apply IH. intros w' Hin. apply (H w'). apply list_elem_of_further, Hin.
Qed.

Lemma preempt_enable_id (s : state) t p :
  live_inv s → pcs s !! t = Some p → in_region p = false →
  preempt_enable t (sync_pending s) = sync_pending s.
Proof.
  intros L Hp Hr. apply preempt_enable_none. intros w Hin.
  destruct (li_pending _ L _ _ Hin) as (q & Hq & Hrq). congruence.
Qed.

(** X9. Round trip: with no writer holding [writer_mutex], a task that
    takes the semaphore for reading and releases it on the same cpu, with
    nothing else scheduled in between, leaves the whole system exactly as it
    was: the counter it touched is back at its value. *)
Theorem read_round_trip nr_cpus nr_tasks s t c :
  Z.of_nat nr_tasks < Int32.modulus →
  reachable nr_cpus nr_tasks s →
  writer_mutex (brw s) = None →
  (c < nr_cpus)%nat →
  pcs s !! t = Some Idle →
  run s (acquire_read t c ++ release_read t c) = Some s.
Proof.
  intros Hn Hr Hm Hcpu Hp.
  pose proof (live_inv_reachable _ _ _ Hn Hr) as L.
  pose proof (wf_reachable _ _ _ Hr) as W.
  assert (Hlt : (t < length (pcs s))%nat) by (eapply lookup_lt_Some, Hp).
  destruct (acquire_read_run _ _ _ _ W Hm Hcpu Hp) as (ctrs & x & Hc & Hx & Hrun).
  rewrite run_app, Hrun. cbn [mbind option_bind].
  pose proof (wf_run _ _ _ _ W Hrun) as W1.
  edestruct (release_read_run nr_cpus _ t c W1) as (ctrs1 & x1 & Hc1 & Hx1 & Hrun1);
    [exact Hm | exact Hcpu | simpl; apply list_lookup_insert_eq, Hlt |].
  rewrite Hrun1. simpl in *. injection Hc1 as <-.
  rewrite list_lookup_insert_eq in Hx1 by (eapply lookup_lt_Some, Hx).
  injection Hx1 as <-.
  assert (Hin : Int32.in_range x).
  { pose proof (li_range _ L) as R. unfold ctrs_of in R. rewrite Hc in R. simpl in R.
    rewrite Forall_forall in R. apply R. apply list_elem_of_lookup. eauto. }
  assert (Ev : Int32.to_int
                 (Int32.to_unsigned
                    (Int32.to_int (Int32.to_unsigned x + fast_ctr_val Down))
                  + fast_ctr_val Up) = x).
  { rewrite <- (to_int_in_range _ Hin) at 2. apply to_int_eqm.
    rewrite eqm32_to_unsigned, eqm32_to_int, eqm32_to_unsigned,
      (fast_ctr_val_eqm Down), (fast_ctr_val_eqm Up). simpl.
    apply eqm32_eq. lia. }
  unfold fast_ctr_val in Ev.
  rewrite Ev, !list_insert_insert_eq, (list_insert_id _ _ _ Hx),
    (list_insert_id _ _ _ Hp).
  assert (Hpe : preempt_enable t (sync_pending s) = sync_pending s)
    by (eapply preempt_enable_id; [exact L | exact Hp | reflexivity]).
  rewrite !Hpe. f_equal.
  destruct s as [[f m r v q] l pend]. unfold set_fast_read_ctr. simpl in *.
  congruence.
Qed.

Lemma read_round_trip_witness :
  let s := after 2 1 (migrating_reader ++ [(0%nat, Tick 0)]) in
  ctrs_of s = [1; -1] ∧
  run s (acquire_read 0 1 ++ release_read 0 1) = Some s.
Proof.
  intros s. split; [reflexivity|].
  apply (read_round_trip 2 1 s 0%nat 1%nat).
  - reflexivity.
  - exists (migrating_reader ++ [(0%nat, Tick 0)]). reflexivity.
  - reflexivity.
  - apply Nat.lt_succ_diag_r.
  - reflexivity.
Defined.

Lemma no_writer_acquire_read t c : no_writer (acquire_read t c) = true.
Proof. reflexivity. Qed.

Lemma all_acquire_run nr_cpus n c k :
  (c < nr_cpus)%nat → (k ≤ n)%nat →
  ∃ s, run (init_state nr_cpus n) (all_acquire k c) = Some s ∧
       pcs s = replicate k Reading ++ replicate (n - k) Idle ∧
       readers_only s ∧ wf nr_cpus s.
Proof.
  intros Hc. induction k as [|k IH]; intros Hk.
  - exists (init_state nr_cpus n). simpl. rewrite Nat.sub_0_r.
    split; [reflexivity|]. split; [reflexivity|].
    split; [apply readers_only_init | apply wf_init].
  - destruct IH as (s & Hrun & Hpcs & R & W); [lia|].
    assert (Hp : pcs s !! k = Some Idle).
    { rewrite Hpcs, lookup_app_r by (rewrite length_replicate; lia).
      rewrite length_replicate, Nat.sub_diag. apply lookup_replicate_2. lia. }
    destruct (acquire_read_run _ _ _ _ W (ro_mutex _ R) Hc Hp)
      as (ctrs & x & Hct & Hx & Hrun').
    eexists. simpl. rewrite run_app, Hrun. cbn [mbind option_bind].
    split; [exact Hrun'|]. split.
    + simpl. rewrite Hpcs.
      rewrite insert_app_r_alt by (rewrite length_replicate; lia).
      rewrite length_replicate, Nat.sub_diag.
      replace (n - k)%nat with (S (n - S k)) by lia. simpl.
      rewrite cons_middle, app_assoc, <- replicate_S_end. reflexivity.
    + split.
      * eapply readers_only_run; [exact R | apply no_writer_acquire_read | exact Hrun'].
      * eapply wf_run; [exact W | exact Hrun'].
Qed.

(** X8. Readers share: from a fresh semaphore, any number of tasks can take
    it for reading one after the other and all be inside their sections at
    once; none blocks, the mutex stays free and the slow counter zero. *)
Theorem readers_share nr_cpus n c :
  (c < nr_cpus)%nat →
  ∃ s, run (init_state nr_cpus n) (all_acquire n c) = Some s ∧
       pcs s = replicate n Reading ∧
       writer_mutex (brw s) = None ∧
       slow_read_ctr (brw s) = 0.
Proof.
  intros Hc. destruct (all_acquire_run nr_cpus n c n Hc (Nat.le_refl n))
    as (s & Hrun & Hpcs & R & _).
  exists s. split; [exact Hrun|].
  rewrite Nat.sub_diag, app_nil_r in Hpcs.
  split; [exact Hpcs|]. split; [apply (ro_mutex _ R) | apply (ro_slow _ R)].
Qed.

Lemma readers_share_witness :
  ∃ s, run (init_state 1 3) (all_acquire 3 0) = Some s ∧
       pcs s = replicate 3 Reading ∧
       writer_mutex (brw s) = None ∧
       slow_read_ctr (brw s) = 0.
Proof. apply (readers_share 1 3 0%nat). apply Nat.lt_0_succ. Defined.

(** ** The layout of page->flags *)

Module PageFlagsLayoutFacts.
Import PageFlagsLayout.

Ltac layout_cases :=
  repeat match goal with
  | |- context [if ?b then _ else _] =>
      match b with
      | (_ <? _) => destruct (Z.ltb_spec0 _ _)
      | (_ <=? _) => destruct (Z.leb_spec0 _ _)
      | (_ =? _) => destruct (Z.eqb_spec _ _)
      | _ => destruct b eqn:?
      end
  | H : context [if ?b then _ else _] |- _ =>
      match b with
      | (_ <? _) => destruct (Z.ltb_spec0 _ _)
      | (_ <=? _) => destruct (Z.leb_spec0 _ _)
      | (_ =? _) => destruct (Z.eqb_spec _ _)
      | _ => destruct b eqn:?
      end
  end.

(** X10. [ZONES_SHIFT] is the number of bits needed to number the zones:
    for up to four zones it is the least shift with
    [MAX_NR_ZONES <= 2^ZONES_SHIFT]; with more than four zones the header
    does not compile. *)
Theorem zones_shift_is_log2 (c : config) :
  match ZONES_SHIFT c with
  | inr z => 0 <= z <= 2 ∧ MAX_NR_ZONES c <= 2 ^ z ∧
             (0 < z → 2 ^ (z - 1) < MAX_NR_ZONES c)
  | inl e => e = too_many_zones ∧ 4 < MAX_NR_ZONES c
  end.
Proof.
  unfold ZONES_SHIFT. layout_cases; simpl; repeat split; try lia.
Qed.

(** Within the range of [intmax_t] the conversion changes nothing. *)
Lemma to_intmax_id (z : Z) :
  - 2 ^ 63 <= z <= INTMAX_MAX → to_intmax z = z.
Proof.
  unfold to_intmax, INTMAX_MAX. intros H. cbv zeta.
  destruct (Z.leb_spec0 0 z) as [Hz|Hz].
  - rewrite Z.mod_small by lia. destruct (Z.ltb_spec0 z (2 ^ 63)); lia.
  - assert (z mod 2 ^ 64 = z + 2 ^ 64) as ->
      by (symmetry; apply Z.mod_unique with (-1); lia).
    destruct (Z.ltb_spec0 (z + 2 ^ 64) (2 ^ 63)); lia.
Qed.

Lemma to_intmax_range (z : Z) : - 2 ^ 63 <= to_intmax z <= INTMAX_MAX.
Proof.
  unfold to_intmax, INTMAX_MAX. pose proof (Z.mod_pos_bound z (2 ^ 64)).
  destruct (Z.ltb_spec0 (z mod 2 ^ 64) (2 ^ 63)); lia.
Qed.

Lemma cpp_add_exact (a b : Z) :
  - 2 ^ 63 <= a + b <= INTMAX_MAX → cpp_add a b = a + b.
Proof. apply to_intmax_id. Qed.

Lemma zones_width_range (c : config) (z : Z) :
  ZONES_WIDTH c = inr z → 0 <= z <= 2.
Proof.
  unfold ZONES_WIDTH, ZONES_SHIFT. intros H.
  layout_cases; simplify_eq; lia.
Qed.

(** The sums of the two [#if]s are exact when the widths are not negative
    and their sum is an [intmax_t]. *)
Lemma nodes_sum_exact (c : config) (z : Z) :
  0 <= z → 0 <= SECTIONS_WIDTH c → 0 <= NODES_SHIFT c →
  SECTIONS_WIDTH c + z + NODES_SHIFT c <= INTMAX_MAX →
  cpp_add (cpp_add (SECTIONS_WIDTH c) z) (NODES_SHIFT c) =
  SECTIONS_WIDTH c + z + NODES_SHIFT c.
Proof.
  unfold INTMAX_MAX. intros.
  rewrite (cpp_add_exact (SECTIONS_WIDTH c) z) by (unfold INTMAX_MAX; lia).
  apply cpp_add_exact. unfold INTMAX_MAX. lia.
Qed.

Lemma last_cpu_sum_exact (c : config) (z : Z) :
  0 <= z → 0 <= SECTIONS_WIDTH c → 0 <= NODES_SHIFT c → 0 <= LAST_CPU_SHIFT c →
  SECTIONS_WIDTH c + z + NODES_SHIFT c + LAST_CPU_SHIFT c <= INTMAX_MAX →
  cpp_add (cpp_add (cpp_add (SECTIONS_WIDTH c) z) (NODES_SHIFT c))
          (LAST_CPU_SHIFT c) =
  SECTIONS_WIDTH c + z + NODES_SHIFT c + LAST_CPU_SHIFT c.
Proof.
  intros. rewrite nodes_sum_exact by lia.
  apply cpp_add_exact. unfold INTMAX_MAX in *. lia.
Qed.

(** Where the sum of the [#if] does wrap, the header keeps the node field
    although the fields do not fit, and leaves [NODE_NOT_IN_PAGE_FLAGS]
    undefined. *)
Example nodes_width_wraps :
  intmax_config huge_nodes = true ∧
  NODES_WIDTH huge_nodes = inr (NODES_SHIFT huge_nodes) ∧
  NODE_NOT_IN_PAGE_FLAGS huge_nodes = inr false ∧
  room huge_nodes < SECTIONS_WIDTH huge_nodes + 2 + NODES_SHIFT huge_nodes.
Proof. repeat split. Qed.

(** X11. The conditions of the header are evaluated in [intmax_t]. When the
    numbers of the configuration are [intmax_t] values, the header compiles,
    the widths are not negative, and the sum of the four shifts is an
    [intmax_t] (so that no sum of an [#if] wraps around), then
    [NODES_WIDTH] is [NODES_SHIFT] or 0 and [LAST_CPU_WIDTH] is
    [LAST_CPU_SHIFT] or 0; the last-cpu field is kept only if the node field
    is; and if section and zone fit left of the flags, so do all four fields
    together. *)
Theorem layout_fits (c : config) (z n l : Z) :
  intmax_config c = true →
  ZONES_WIDTH c = inr z → NODES_WIDTH c = inr n → LAST_CPU_WIDTH c = inr l →
  0 <= SECTIONS_WIDTH c → 0 <= NODES_SHIFT c → 0 <= NR_CPUS_BITS c →
  SECTIONS_WIDTH c + z + NODES_SHIFT c + LAST_CPU_SHIFT c <= INTMAX_MAX →
  (n = NODES_SHIFT c ∨ n = 0) ∧
  (l = LAST_CPU_SHIFT c ∨ l = 0) ∧
  (l ≠ 0 → n = NODES_SHIFT c) ∧
  (SECTIONS_WIDTH c + z <= room c → SECTIONS_WIDTH c + z + n + l <= room c).
Proof.
  intros _ Hz Hn Hl H0 H1 H2 H3.
  pose proof (zones_width_range _ _ Hz) as Rz.
  assert (0 <= LAST_CPU_SHIFT c) as H4
    by (unfold LAST_CPU_SHIFT; destruct (CONFIG_NUMA_BALANCING c); lia).
  revert Hn Hl. unfold LAST_CPU_WIDTH, NODES_WIDTH. rewrite Hz.
  rewrite last_cpu_sum_exact, nodes_sum_exact by lia.
  intros Hn Hl.
  layout_cases; simplify_eq; repeat split; auto; try lia.
Qed.

Lemma layout_fits_witness :
  SECTIONS_WIDTH numa64 + 2 + 6 + 8 <= room numa64.
Proof.
  refine (proj2 (proj2 (proj2 (layout_fits numa64 2 6 8 _ _ _ _ _ _ _ _))) _);
    try reflexivity; discriminate.
Defined.



End PageFlagsLayoutFacts.

(** ** New readers while a writer holds the semaphore *)

(** X13. "block the new readers completely": a reader that has reached
    [down_read] on the slow path is held up exactly while some writer is
    between its [down_write] and its [up_write]. *)
Theorem down_write_blocks_new_readers nr_cpus nr_tasks s r cpu :
  Z.of_nat nr_tasks < Int32.modulus →
  reachable nr_cpus nr_tasks s →
  pcs s !! r = Some DR_down_read →
  (step s r (Tick cpu) = None ↔
   ∃ w q, pcs s !! w = Some q ∧ holds_rwsem_write q = true).
Proof.
  intros Hn Hr Hp. pose proof (inv_reachable _ _ _ Hn Hr) as I.
  pose proof (live_inv_reachable _ _ _ Hn Hr) as L.
  rewrite (step_tick _ _ _ _ Hp). simpl. unfold down_read. split.
  - destruct (rw_writer (rw_sem (brw s))) as [w|] eqn:E; [|discriminate].
    intros _. destruct (li_rw_owner _ L _ E) as [q Hq].
    exists w, q. split; [exact Hq|]. apply (inv_rwsem_w _ I _ _ Hq), E.
  - intros (w & q & Hq & Hh). apply (inv_rwsem_w _ I _ _ Hq) in Hh.
    rewrite Hh. reflexivity.
Qed.

Lemma down_write_blocks_new_readers_witness :
  step (after 2 2 reader_behind_writer) 0%nat (Tick 0) = None.
Proof.
  refine (proj2 (down_write_blocks_new_readers 2 2 (after 2 2 reader_behind_writer)
                   0%nat 0%nat _ _ _) _).
  - reflexivity.
  - exists reader_behind_writer. reflexivity.
  - reflexivity.
  - exists 1%nat, Writing. split; reflexivity.
Defined.

(** ** Readers while no writer is present *)

(** The state [reader_outlives_writer] leads to. *)
Example reader_outlives_writer_state :
  run (init_state 2 2) reader_outlives_writer
  = Some (mk_state (mk_brw (Some [0; 0]) None (mk_rwsem 0 None) 1 [])
                   [Reading; Idle] []).
Proof. reflexivity. Qed.

(** [no_writer_present] and [all_fast_path], task by task. *)
Lemma no_writer_present_lookup s :
  no_writer_present s = true ↔ ∀ t p, pcs s !! t = Some p → writer_pc p = false.
Proof.
  unfold no_writer_present. rewrite forallb_forall. split.
  - intros H t p Hp. apply negb_true_iff, H.
    apply list_elem_of_In, list_elem_of_lookup. eauto.
  - intros H p Hin. apply list_elem_of_In, list_elem_of_lookup in Hin as [t Hp].
    apply negb_true_iff. eauto.
Qed.

Lemma all_fast_path_lookup s :
  all_fast_path s = true ↔ ∀ t p, pcs s !! t = Some p → fast_path_pc p = true.
Proof.
  unfold all_fast_path. rewrite forallb_forall. split.
  - intros H t p Hp. apply H.
    apply list_elem_of_In, list_elem_of_lookup. eauto.
  - intros H p Hin. apply list_elem_of_In, list_elem_of_lookup in Hin as [t Hp].
    eauto.
Qed.

(** A reader's step, or a call other than [percpu_down_write], brings no
    writer in. *)
Lemma no_writer_present_step s t a s' :
  no_writer_present s = true → a ≠ Call E_percpu_down_write →
  step s t a = Some s' → no_writer_present s' = true.
Proof.
  rewrite !no_writer_present_lookup. intros Hf Ha H.
  step_cases H; pose proof (Hf _ _ Hp) as Hfp; simpl in Hfp; try discriminate;
    try contradiction; simpl in *.
  all: intros t' q Hq; split_lookup' Hq; try (eapply Hf; eassumption);
    try reflexivity.
  all: destruct o, success; simpl in *; try reflexivity; discriminate.
Qed.

Lemma no_writer_present_run tr : ∀ s s',
  no_writer_present s = true → no_writer tr = true → run s tr = Some s' →
  no_writer_present s' = true.
Proof.
  induction tr as [|[t a] tr IH]; intros s s' R Hn H; simpl in H.
  - injection H as <-. exact R.
  - destruct (step s t a) as [s1|] eqn:E; simpl in H; [|discriminate].
    apply no_writer_cons in Hn as [Ha Hn].
    eapply IH; [eapply no_writer_present_step; eassumption | exact Hn | exact H].
Qed.

(** With no writer present in a reachable state, both locks are free. *)
Lemma no_writer_locks_free nr_cpus nr_tasks s :
  Z.of_nat nr_tasks < Int32.modulus →
  reachable nr_cpus nr_tasks s → no_writer_present s = true →
  writer_mutex (brw s) = None ∧ rw_writer (rw_sem (brw s)) = None.
Proof.
  intros Hn Hr Hnw. rewrite no_writer_present_lookup in Hnw.
  pose proof (inv_reachable _ _ _ Hn Hr) as I.
  pose proof (wf_reachable _ _ _ Hr) as W.
  pose proof (live_inv_reachable _ _ _ Hn Hr) as L.
  split.
  - destruct (writer_mutex (brw s)) as [w|] eqn:E; [|reflexivity].
    destruct (wf_owner _ _ W _ E) as [q Hq].
    apply (inv_mutex _ I _ _ Hq) in E. apply Hnw in Hq.
    destruct q; simpl in *; discriminate.
  - destruct (rw_writer (rw_sem (brw s))) as [w|] eqn:E; [|reflexivity].
    destruct (li_rw_owner _ L _ E) as [q Hq].
    apply (inv_rwsem_w _ I _ _ Hq) in E. apply Hnw in Hq.
    destruct q; simpl in *; discriminate.
Qed.

(** While every task is on the fast path and [writer_mutex] is free, this
    stays so, and [slow_read_ctr] is not touched. *)
Lemma all_fast_path_step s t a s' :
  writer_mutex (brw s) = None → all_fast_path s = true →
  a ≠ Call E_percpu_down_write → step s t a = Some s' →
  writer_mutex (brw s') = None ∧ all_fast_path s' = true ∧
  slow_read_ctr (brw s') = slow_read_ctr (brw s).
Proof.
  rewrite !all_fast_path_lookup. intros Hm Hf Ha H.
  step_cases H; pose proof (Hf _ _ Hp) as Hfp; simpl in Hfp; try discriminate;
    try contradiction; simpl in *.
  all: try (rewrite Hm in *; simpl in *; discriminate).
  all: repeat split; simpl; try assumption.
  all: intros t' q Hq; split_lookup' Hq; try (eapply Hf; eassumption);
    try reflexivity.
  all: destruct o, success; simpl in *; try reflexivity; discriminate.
Qed.

Lemma all_fast_path_run tr : ∀ s s',
  writer_mutex (brw s) = None → all_fast_path s = true →
  no_writer tr = true → run s tr = Some s' →
  writer_mutex (brw s') = None ∧ all_fast_path s' = true ∧
  slow_read_ctr (brw s') = slow_read_ctr (brw s).
Proof.
  induction tr as [|[t a] tr IH]; intros s s' Hm R Hn H; simpl in H.
  - injection H as <-. auto.
  - destruct (step s t a) as [s1|] eqn:E; simpl in H; [|discriminate].
    apply no_writer_cons in Hn as [Ha Hn].
    destruct (all_fast_path_step _ _ _ _ Hm R Ha E) as (Hm1 & R1 & E1).
    destruct (IH _ _ Hm1 R1 Hn H) as (? & ? & E2).
    repeat split; try assumption. congruence.
Qed.

(** While [writer_mutex] is free, a task that is not on a slow path does not
    get onto one. *)
Lemma fast_path_step s t a s' u p0 p :
  writer_mutex (brw s) = None → a ≠ Call E_percpu_down_write →
  step s t a = Some s' →
  pcs s !! u = Some p0 → fast_path_pc p0 = true →
  pcs s' !! u = Some p → fast_path_pc p = true.
Proof.
  intros Hm Ha H Hu Hf Hu'.
  destruct (decide (u = t)) as [->|Hne].
  - revert Hu Hf Hu'. step_cases H; intros Hu Hf Hu'; simpl in *;
      try contradiction.
    all: injection Hu as <-; simpl in Hf; try discriminate.
    all: try (rewrite Hm in *; simpl in *; discriminate).
    all: rewrite list_lookup_insert_eq in Hu' by (eapply lookup_lt_Some; eassumption).
    all: injection Hu' as <-; try reflexivity.
    all: destruct o, success; simpl in *; try reflexivity; discriminate.
  - rewrite (step_other _ _ _ _ _ H Hne) in Hu'. congruence.
Qed.

Lemma fast_path_run nr_cpus nr_tasks tr : ∀ s s' u p0 p,
  Z.of_nat nr_tasks < Int32.modulus →
  reachable nr_cpus nr_tasks s → no_writer_present s = true →
  no_writer tr = true → run s tr = Some s' →
  pcs s !! u = Some p0 → fast_path_pc p0 = true →
  pcs s' !! u = Some p → fast_path_pc p = true.
Proof.
  induction tr as [|[t a] tr IH]; intros s s' u p0 p Hn Hr Hnw Hw H Hu Hf Hu';
    simpl in H.
  - injection H as <-. congruence.
  - destruct (step s t a) as [s1|] eqn:E; simpl in H; [|discriminate].
    apply no_writer_cons in Hw as [Ha Hw]. simpl in Ha.
    destruct (no_writer_locks_free _ _ _ Hn Hr Hnw) as [Hm _].
    assert (is_Some (pcs s1 !! u)) as [p1 Hu1].
    { apply lookup_lt_is_Some. rewrite (step_length _ _ _ _ E).
      eapply lookup_lt_Some, Hu. }
    eapply (IH s1 s' u p1 p Hn); try eassumption.
    + eapply reachable_step; eassumption.
    + eapply no_writer_present_step; eassumption.
    + eapply fast_path_step; eassumption.
Qed.

(** C6, amended. Take any reachable state in which no writer is present
    (earlier writers may have come and gone, and readers they sent onto the
    slow path may still be there), and any schedule from it in which nobody
    calls [percpu_down_write]. Then afterwards: still no writer is present
    and [writer_mutex] is free; a task that was, at the start or at any
    moment of the schedule, outside the semaphore, in its section or on the
    fast path has not got onto a slow path, so every call made along the
    schedule takes the fast path; every statement of every
    task inside a call is enabled on every cpu, so no call blocks; the sum of
    the per-cpu counters plus [slow_read_ctr] is congruent modulo 2^32 to the
    number of counted readers (single counters may be negative, and so may
    their sum when [slow_read_ctr] is not zero); once every task is back
    outside, what [percpu_down_write] would compute at l.188, the 32-bit sum
    of the per-cpu counters added to [slow_read_ctr], is zero. If all tasks
    were on the fast path at the start, [slow_read_ctr] is not touched; if it
    was zero as well, as on a semaphore no writer has used, the per-cpu
    counters alone sum to the number of counted readers, and to zero, as
    [clear_fast_ctr] computes it, once every task is back outside. *)
Theorem readers_only_fast_path nr_cpus nr_tasks s0 tr s :
  Z.of_nat nr_tasks < Int32.modulus →
  reachable nr_cpus nr_tasks s0 →
  no_writer_present s0 = true →
  no_writer tr = true →
  run s0 tr = Some s →
  (no_writer_present s = true ∧ writer_mutex (brw s) = None) ∧
  (∀ tr1 tr2 s1 t p1 p, tr = tr1 ++ tr2 → run s0 tr1 = Some s1 →
     pcs s1 !! t = Some p1 → fast_path_pc p1 = true →
     pcs s !! t = Some p → fast_path_pc p = true) ∧
  (∀ t p cpu, pcs s !! t = Some p → p ≠ Idle → p ≠ Reading →
              (cpu < nr_cpus)%nat → is_Some (step s t (Tick cpu))) ∧
  eqm32 (Zsum (ctrs_of s) + slow_read_ctr (brw s)) (Zsum (counted <$> pcs s)) ∧
  (Forall (λ p, p = Idle) (pcs s) →
   atomic_add (clear_fast_ctr (ctrs_of s)).1 (slow_read_ctr (brw s)) = 0) ∧
  (all_fast_path s0 = true →
   all_fast_path s = true ∧ slow_read_ctr (brw s) = slow_read_ctr (brw s0)) ∧
  (all_fast_path s0 = true → slow_read_ctr (brw s0) = 0 →
   slow_read_ctr (brw s) = 0 ∧
   eqm32 (Zsum (ctrs_of s)) (Zsum (counted <$> pcs s)) ∧
   (Forall (λ p, p = Idle) (pcs s) → (clear_fast_ctr (ctrs_of s)).1 = 0)).
Proof.
  intros Hn Hr0 Hnw0 Hw Hrun.
  pose proof (reachable_run _ _ _ _ _ Hr0 Hrun) as Hr.
  pose proof (no_writer_present_run _ _ _ Hnw0 Hw Hrun) as Hnw.
  destruct (no_writer_locks_free _ _ _ Hn Hr Hnw) as [Hm Hrw].
  destruct (no_writer_locks_free _ _ _ Hn Hr0 Hnw0) as [Hm0 _].
  pose proof (inv_reachable _ _ _ Hn Hr) as I.
  pose proof (wf_reachable _ _ _ Hr) as [(ctrs & Hc & Hl) Hcpu _ _].
  pose proof Hnw as Hnw'. rewrite no_writer_present_lookup in Hnw'.
  assert (Hsum : eqm32 (Zsum (ctrs_of s) + slow_read_ctr (brw s))
                       (Zsum (counted <$> pcs s))).
  { pose proof (inv_count _ I) as M.
    rewrite (Zsum_fmap_zero local_sum) in M.
    - eapply eqm32_shift; [exact M | lia].
    - intros i x Hx. apply Hnw' in Hx. destruct x; simpl in *; congruence. }
  assert (Hidle : Forall (λ p, p = Idle) (pcs s) → Zsum (counted <$> pcs s) = 0).
  { intros Hidle. apply Zsum_fmap_zero. intros i x Hx.
    rewrite (all_idle_lookup _ _ _ Hidle Hx). reflexivity. }
  repeat apply conj.
  - exact Hnw.
  - exact Hm.
  - intros tr1 tr2 s1 t p1 p -> Hrun1.
    rewrite run_app, Hrun1 in Hrun. simpl in Hrun.
    unfold no_writer in Hw. rewrite forallb_app in Hw.
    apply andb_true_iff in Hw as [Hw1 Hw2].
    exact (fast_path_run nr_cpus nr_tasks tr2 s1 s t p1 p Hn
             (reachable_run _ _ _ _ _ Hr0 Hrun1)
             (no_writer_present_run _ _ _ Hnw0 Hw1 Hrun1) Hw2 Hrun).
  - intros t p cpu Hp N1 N2 Hcpu'. pose proof (Hnw' _ _ Hp) as Hfp.
    run_step Hp. destruct p; simpl in *; try discriminate; try contradiction.
    + rewrite Hc. simpl.
      destruct (Nat.ltb_spec cpu (length ctrs)); [eauto | lia].
    + rewrite Hm. simpl. eauto.
    + rewrite Hc. simpl.
      assert (Hlt : (cpu0 < length ctrs)%nat).
      { rewrite Hl. eapply Hcpu; [exact Hp | reflexivity]. }
      destruct (lookup_lt_is_Some_2 ctrs cpu0 Hlt) as [x Hx].
      unfold this_cpu_add. rewrite Hx. simpl. eauto.
    + eauto.
    + unfold down_read. rewrite Hrw. simpl. eauto.
    + eauto.
    + eauto.
    + eauto.
    + eauto.
  - exact Hsum.
  - intros Hi. rewrite clear_fast_ctr_spec. simpl. unfold atomic_add.
    rewrite (to_int_eqm _ 0); [reflexivity|].
    rewrite eqm32_to_int, Z.add_comm, Hsum, (Hidle Hi). reflexivity.
  - intros Hfast. apply (all_fast_path_run _ _ _ Hm0 Hfast Hw Hrun).
  - intros Hfast Hs0.
    destruct (all_fast_path_run _ _ _ Hm0 Hfast Hw Hrun) as (_ & _ & E).
    rewrite Hs0 in E. rewrite E, Z.add_0_r in Hsum.
    split; [exact E|]. split; [exact Hsum|].
    intros Hi. rewrite clear_fast_ctr_spec. simpl.
    rewrite (to_int_eqm _ 0); [reflexivity|].
    rewrite Hsum, (Hidle Hi). reflexivity.
Qed.

(** After a write cycle that left [slow_read_ctr] at 1: the reader releases
    on the fast path, the per-cpu counters sum to -1, and the sum with
    [slow_read_ctr] is zero. *)
Lemma readers_only_fast_path_witness :
  let s0 := after 2 2 reader_outlives_writer in
  let s := after 2 2 (reader_outlives_writer ++ release_read 0 0) in
  slow_read_ctr (brw s0) = 1 ∧
  pcs s = [Idle; Idle] ∧
  ctrs_of s = [-1; 0] ∧
  slow_read_ctr (brw s) = 1 ∧
  atomic_add (clear_fast_ctr (ctrs_of s)).1 (slow_read_ctr (brw s)) = 0.
Proof.
  intros s0 s. do 4 (split; [reflexivity|]).
  refine (proj1 (proj2 (proj2 (proj2 (proj2
    (readers_only_fast_path 2 2 s0 (release_read 0 0) s _ _ _ _ _))))) _).
  - reflexivity.
  - exists reader_outlives_writer. reflexivity.
  - reflexivity.
  - reflexivity.
  - reflexivity.
  - repeat constructor.
Defined.
